(** * Supersonic string expressions: binding, ownership and display

    A shallow embedding of [supersonic/expression/core/string_expressions.cc]:
    the unbound expression nodes of the string operations (CONCAT, the three
    regular-expression nodes that carry a pattern, and the operations that
    reuse an existing bound factory), their [DoBind] and [ToString] members,
    and the public constructors.

    Strings are byte strings ([string]); [std::string] may hold NUL bytes,
    a [const char*] read by a [%s] directive stops at the first one.
    Bound expressions live on a free store that is threaded through a small
    state monad, so that ownership (who deletes what, and when) is visible. *)

From stdpp Require Import base gmap sets list strings.
From Stdlib Require Import String Ascii NArith.

Set Default Proof Using "Type".
Set Warnings "-register-all,-clear-no-such-hyp".

(** ** Byte strings *)

(** [Contains needle hay]: [needle] occurs in [hay] as a contiguous run. *)
Definition Contains (needle hay : string) : Prop :=
  ∃ before after : string, hay = before +:+ needle +:+ after.

(** [std::string::c_str()] as read by a consumer of C strings: the bytes up to,
    not including, the first NUL byte. *)
Fixpoint c_str (s : string) : string :=
  match s with
  | EmptyString => EmptyString
  | String c rest =>
      if Ascii.eqb c "000"%char then EmptyString else String c (c_str rest)
  end.

(** [StringPrintf(format, args...)] (declared in [stringprintf.h], outside
    this file) with the semantics of [printf], for the directives this file
    uses: [%s] prints the next argument, a C string, and [%%] prints a percent
    sign. The arguments are passed as the values of [c_str]. *)
Fixpoint StringPrintf (format : string) (args : list string) : string :=
  match format with
  | EmptyString => EmptyString
  | String c rest =>
      if Ascii.eqb c "%"%char then
        match rest with
        | String d rest' =>
            if Ascii.eqb d "s"%char then
              match args with
              | a :: args' => a +:+ StringPrintf rest' args'
              | [] => StringPrintf rest' []
              end
            else if Ascii.eqb d "%"%char then String "%"%char (StringPrintf rest' args)
            else String c (String d (StringPrintf rest' args))
        | EmptyString => String c EmptyString
        end
      else String c (StringPrintf rest args)
  end.

(** [StrCat(a, b, c)]: concatenation of the pieces, each with its length
    (a NUL byte inside a piece is kept). *)
Definition StrCat (a b c : string) : string := a +:+ b +:+ c.

(** The pieces in order, with the separator between neighbours. *)
Fixpoint JoinStrings (pieces : list string) (separator : string) : string :=
  match pieces with
  | [] => ""
  | [p] => p
  | p :: rest => p +:+ separator +:+ JoinStrings rest separator
  end.

(** A [StringPiece] is a pointer into memory owned by the caller, with a
    length; [Memory] is the caller's address space. *)
Definition Memory := nat → ascii.

Record StringPiece := { piece_data : nat; piece_length : nat }.

(** [std::string(const char* s, size_t n)]: copies [n] bytes starting at [s]. *)
Fixpoint string_of_bytes (m : Memory) (s : nat) (n : nat) : string :=
  match n with
  | O => EmptyString
  | S n' => String (m s) (string_of_bytes m (S s) n')
  end.

(** ** Types, operators and failures of the engine *)

(** Modelled from the spec: the scalar types of the type registry (the
    enumeration [DataType] is declared in [supersonic.proto], outside this
    file). The hooks tell STRING from every other type. *)
Inductive DataType :=
  | INT32 | INT64 | UINT32 | UINT64 | FLOAT | DOUBLE | BOOL
  | DATE | DATETIME | STRING | BINARY | ENUM | DATA_TYPE.

#[global] Instance DataType_eq_dec : EqDecision DataType.
Proof. solve_decision. Defined.

Record TypeInfo := { info_type : DataType; name : string }.

(** Modelled from the spec: the type-name lookup for diagnostics
    ([GetTypeInfo] is declared in [types.h], outside this file); the name of
    a type is its identifier. *)
Definition GetTypeInfo (t : DataType) : TypeInfo :=
  {| info_type := t;
     name := match t with
             | INT32 => "INT32" | INT64 => "INT64"
             | UINT32 => "UINT32" | UINT64 => "UINT64"
             | FLOAT => "FLOAT" | DOUBLE => "DOUBLE" | BOOL => "BOOL"
             | DATE => "DATE" | DATETIME => "DATETIME"
             | STRING => "STRING" | BINARY => "BINARY"
             | ENUM => "ENUM" | DATA_TYPE => "DATA_TYPE"
             end |}.

(** The operator ids this file instantiates the expression traits and the
    regexp node with (the enumeration is declared in [operators.proto],
    outside this file). *)
Inductive OperatorId :=
  | OPERATOR_REGEXP_PARTIAL | OPERATOR_REGEXP_FULL | OPERATOR_REGEXP_REPLACE.

#[global] Instance OperatorId_eq_dec : EqDecision OperatorId.
Proof. solve_decision. Defined.

(** Modelled from the spec: the kinds of errors. This file raises
    ERROR_ATTRIBUTE_TYPE_MISMATCH; the other codes stand for what a child or a
    bound factory may report (the enumeration is declared in
    [supersonic.proto], outside this file). *)
Inductive ReturnCode :=
  | ERROR_ATTRIBUTE_TYPE_MISMATCH
  | ERROR_ATTRIBUTE_MISSING
  | ERROR_INVALID_ARGUMENT_VALUE
  | ERROR_MEMORY_EXCEEDED
  | ERROR_UNKNOWN_ERROR.

#[global] Instance ReturnCode_eq_dec : EqDecision ReturnCode.
Proof. solve_decision. Defined.

(** Modelled from the spec: an error descriptor is a kind and a message
    ([Exception] is declared in [exception.h], outside this file). *)
Record Exception := { return_code : ReturnCode; message : string }.

(** Modelled from the spec: [FailureOrOwned<T>] (declared in [result.h],
    outside this file) holds either an owned value or an exception. *)
Inductive FailureOrOwned (T : Type) :=
  | Success (value : T)
  | Failure (exception : Exception).
Arguments Success {T} value.
Arguments Failure {T} exception.

Definition is_failure {T} (r : FailureOrOwned T) : bool :=
  match r with Success _ => false | Failure _ => true end.

Definition rowcount_t := N.

(** ** Bound expressions and the free store *)

(** Modelled from the spec: a bound expression ([BoundExpression] is declared
    in [expression.h], outside this file) has a resolved type and owns its
    bound children. It is an object on the free store, at some address. *)
Inductive BoundExpression :=
  BoundNode { bound_addr : nat;
              bound_type : DataType;
              bound_children : list BoundExpression }.

Definition BoundExpressionList := list BoundExpression.

(** [GetExpressionType(bound)] (declared in [expression_utils.h], outside this
    file): the type the bound expression resolves to. *)
Definition GetExpressionType (child : BoundExpression) : DataType :=
  bound_type child.

(** The addresses an object owns: its own and those of its subtree. Deleting
    the object frees all of them. *)
Fixpoint footprint (b : BoundExpression) : list nat :=
  match b with
  | BoundNode a _ children => a :: flat_map footprint children
  end.

Definition footprints (l : BoundExpressionList) : list nat :=
  flat_map footprint l.

(** The bound factories this file calls or passes by address. *)
Inductive BoundFactory :=
  | BoundConcat
  | BoundGeneralRegexp (operation_type : OperatorId)
  | BoundRegexpExtract
  | BoundRegexpReplace
  | BoundLength | BoundLtrim | BoundRtrim | BoundTrim
  | BoundToLower | BoundToUpper | BoundToString
  | BoundContains | BoundContainsCI | BoundStringOffset
  | BoundStringReplace | BoundSubstring | BoundTrailingSubstring.

#[global] Instance BoundFactory_eq_dec : EqDecision BoundFactory.
Proof. solve_decision. Defined.

(** One call of a bound factory: the bound operands handed over (with their
    ownership), the pattern where the factory takes one, the allocator and the
    row capacity. *)
Record FactoryCall (BufferAllocator : Type) := {
  callee : BoundFactory;
  operands : BoundExpressionList;
  pattern_arg : option string;
  call_allocator : BufferAllocator;
  call_row_capacity : rowcount_t }.
Arguments callee {BufferAllocator} _.
Arguments operands {BufferAllocator} _.
Arguments pattern_arg {BufferAllocator} _.
Arguments call_allocator {BufferAllocator} _.
Arguments call_row_capacity {BufferAllocator} _.
Arguments Build_FactoryCall {BufferAllocator} _ _ _ _ _.

(** The collaborators declared outside this file, at their interface:
    the schema and allocator types, the description formats of the expression
    traits, and the verdict of each bound factory on a call (a failure, or the
    type of the bound expression it builds). *)
Class Collaborators := {
  TupleSchema : Type;
  BufferAllocator : Type;
  UnaryExpressionTraits_FormatDescription : OperatorId → string → string;
  BinaryExpressionTraits_FormatDescription :
    OperatorId → string → string → string;
  factory_verdict : FactoryCall BufferAllocator → FailureOrOwned DataType }.

(** Modelled from the spec: the display template of a node that reuses an
    existing bound factory (the generic node itself is declared in
    [expression_utils.h], outside this file). [$0] to [$9] stand for the
    representations of the operands, substituted positionally in one pass;
    every other character is copied. *)
Definition placeholder_index (d : ascii) : option nat :=
  let n := nat_of_ascii d in
  if (48 <=? n) && (n <=? 57) then Some (n - 48) else None.

Fixpoint Substitute (format : string) (args : list string) : string :=
  match format with
  | EmptyString => EmptyString
  | String c rest =>
      if Ascii.eqb c "$"%char then
        match rest with
        | String d rest' =>
            match placeholder_index d with
            | Some i => default "" (args !! i) +:+ Substitute rest' args
            | None => String c (Substitute rest args)
            end
        | EmptyString => String c EmptyString
        end
      else String c (Substitute rest args)
  end.

Section Expressions.
Context `{Collaborators}.

(** ** Unbound expressions *)

(** The expression nodes of this file, and [ExternalExpression] for any
    expression declared elsewhere in the engine (an attribute reference, a
    constant, ...): its representation, and what it resolves to on a bind. *)
Inductive Expression :=
  | ExternalExpression
      (describe : bool → string)
      (resolve : TupleSchema → BufferAllocator → rowcount_t →
                 FailureOrOwned DataType)
  | ConcatExpression (args_ : list Expression)
  | RegexpExpression (operation_type : OperatorId)
      (child_expression_ : Expression) (pattern_ : string)
  | RegexpExtractExpression
      (child_expression_ : Expression) (pattern_ : string)
  | RegexpReplaceExpression
      (left_ : Expression) (pattern_ : string) (right_ : Expression)
  | ExistingBoundFactoryExpression (args_ : list Expression)
      (bound_factory : BoundFactory) (description_pattern : string).

Definition ExpressionList := list Expression.

(** ** The free store as a state *)

(** What the binder does to the store and to its collaborators, recorded as
    it happens: a call of [DoBind] on a node, an allocation, a deletion, a
    call of a bound factory. *)
Inductive Event :=
  | EvBind (e : Expression)
  | EvNew (b : BoundExpression)
  | EvDelete (b : BoundExpression)
  | EvCall (c : FactoryCall BufferAllocator).

(** [live]: the addresses allocated and not yet freed; [faults]: addresses
    freed while not live (a double release); [log]: what happened, oldest
    first. *)
Record Heap := {
  live : gset nat;
  faults : list nat;
  log : list Event }.

(** Computations that read and change the store. *)
Definition M (A : Type) : Type := Heap → A * Heap.

Definition ret {A} (a : A) : M A := λ h, (a, h).

Definition bind {A B} (c : M A) (k : A → M B) : M B :=
  λ h, let (a, h') := c h in k a h'.

Definition trace (ev : Event) : M unit :=
  λ h, (tt, {| live := live h; faults := faults h; log := log h ++ [ev] |}).

(** [new]: a fresh address becomes live; the new object owns [children]. *)
Definition new_bound (ty : DataType) (children : BoundExpressionList)
  : M BoundExpression :=
  λ h, let b := BoundNode (fresh (live h)) ty children in
       (b, {| live := {[ bound_addr b ]} ∪ live h;
              faults := faults h;
              log := log h ++ [EvNew b] |}).

(** [delete b]: frees the object and the subtree it owns. *)
Definition delete (b : BoundExpression) : M unit :=
  λ h, (tt, {| live := live h ∖ list_to_set (footprint b);
               faults := faults h ++ filter (λ a, a ∉ live h) (footprint b);
               log := log h ++ [EvDelete b] |}).

End Expressions.

Declare Scope bind_scope.
Delimit Scope bind_scope with M.
Notation "x <- c ;; k" := (bind c (λ x, k))
  (at level 100, c at next level, right associativity) : bind_scope.
Notation "c ;;; k" := (bind c (λ _, k))
  (at level 100, right associativity) : bind_scope.

Section Binding.
Context `{Collaborators}.
Local Open Scope bind_scope.

(** ** Ownership helpers *)

(** [scoped_ptr<BoundExpression>]: holds a pointer or nothing. [release()]
    hands the pointer out and leaves the holder empty; the destructor deletes
    what is still held. *)
Definition scoped_ptr := option BoundExpression.

Definition scoped_ptr_release (p : scoped_ptr) : scoped_ptr := None.

Definition scoped_ptr_destroy (p : scoped_ptr) : M unit :=
  match p with
  | Some b => delete b
  | None => ret tt
  end.

(** Deleting an owned list deletes its elements, first to last. *)
Fixpoint delete_list (l : BoundExpressionList) : M unit :=
  match l with
  | [] => ret tt
  | b :: rest => delete b ;;; delete_list rest
  end.

(** [THROW(new Exception(code, message))]: leaves the function with a
    failure that carries the exception. *)
Definition THROW {T} (e : Exception) : FailureOrOwned T := Failure e.

(** Modelled from the spec: a bound factory (declared in
    [string_bound_expressions.h], outside this file) receives the ownership
    of its bound operands; it answers with a failure, after releasing the
    operands, or with a new bound expression that owns them. *)
Definition Invoke (factory : BoundFactory) (bound : BoundExpressionList)
    (pattern : option string) (allocator : BufferAllocator)
    (row_capacity : rowcount_t) : M (FailureOrOwned BoundExpression) :=
  let call := Build_FactoryCall factory bound pattern allocator row_capacity in
  trace (EvCall call) ;;;
  match factory_verdict call with
  | Failure e => delete_list bound ;;; ret (Failure e)
  | Success ty => b <- new_bound ty bound ;; ret (Success b)
  end.

(** ** Textual representation *)

(** Modelled from the spec: [ExpressionList::ToString] (declared in
    [expression.h], outside this file) lists the representations of the
    elements in order, separated by a comma and a space. *)
Definition ExpressionList_ToString
    (to_string : Expression → bool → string)
    (expressions_ : ExpressionList) (verbose : bool) : string :=
  JoinStrings (map (λ e, to_string e verbose) expressions_) ", ".

(** [ToString(verbose)], dispatched on the class of the node. *)
Fixpoint ToString (e : Expression) (verbose : bool) : string :=
  match e with
  | ExternalExpression describe _ => describe verbose
  | ConcatExpression args_ =>
      StrCat "CONCAT(" (ExpressionList_ToString ToString args_ verbose) ")"
  | RegexpExpression operation_type child_expression_ _ =>
      UnaryExpressionTraits_FormatDescription operation_type
        (ToString child_expression_ verbose)
  | RegexpExtractExpression child_expression_ _ =>
      StringPrintf "REGEXP_EXTRACT(%s)"
        [c_str (ToString child_expression_ verbose)]
  | RegexpReplaceExpression left_ _ right_ =>
      BinaryExpressionTraits_FormatDescription OPERATOR_REGEXP_REPLACE
        (ToString left_ verbose) (ToString right_ verbose)
  | ExistingBoundFactoryExpression args_ _ description_pattern =>
      Substitute description_pattern
        (map (λ e, ToString e verbose) args_)
  end.

(** ** The type-check hooks *)

(** [RegexpExpression<operation_type>::CreateBoundUnaryExpression]. The
    scoped pointer takes the bound child first; a type other than STRING
    throws, which destroys the scoped pointer and with it the child; otherwise
    the child is released to [BoundGeneralRegexp<operation_type>], with the
    pattern. *)
Definition RegexpExpression_CreateBoundUnaryExpression
    (operation_type : OperatorId) (child_expression_ : Expression)
    (pattern_ : string)
    (schema : TupleSchema) (allocator : BufferAllocator)
    (row_capacity : rowcount_t) (child : BoundExpression)
  : M (FailureOrOwned BoundExpression) :=
  let this := RegexpExpression operation_type child_expression_ pattern_ in
  let child_ptr : scoped_ptr := Some child in
  let child_type := GetExpressionType child in
  if decide (child_type ≠ STRING) then
    scoped_ptr_destroy child_ptr ;;;
    ret (THROW
      {| return_code := ERROR_ATTRIBUTE_TYPE_MISMATCH;
         message :=
           StringPrintf "Invalid argument type (%s) to %s, STRING expected"
             [c_str (name (GetTypeInfo child_type));
              c_str (ToString this true)] |})
  else
    result <- Invoke (BoundGeneralRegexp operation_type) [child]
                (Some pattern_) allocator row_capacity ;;
    scoped_ptr_destroy (scoped_ptr_release child_ptr) ;;;
    ret result.

(** [RegexpExtractExpression::CreateBoundUnaryExpression]: the same check,
    in front of [BoundRegexpExtract]. *)
Definition RegexpExtractExpression_CreateBoundUnaryExpression
    (child_expression_ : Expression) (pattern_ : string)
    (schema : TupleSchema) (allocator : BufferAllocator)
    (row_capacity : rowcount_t) (child : BoundExpression)
  : M (FailureOrOwned BoundExpression) :=
  let this := RegexpExtractExpression child_expression_ pattern_ in
  let child_ptr : scoped_ptr := Some child in
  let child_type := GetExpressionType child in
  if decide (child_type ≠ STRING) then
    scoped_ptr_destroy child_ptr ;;;
    ret (THROW
      {| return_code := ERROR_ATTRIBUTE_TYPE_MISMATCH;
         message :=
           StringPrintf "Invalid argument type (%s) to %s, STRING expected"
             [c_str (name (GetTypeInfo child_type));
              c_str (ToString this true)] |})
  else
    result <- Invoke BoundRegexpExtract [child]
                (Some pattern_) allocator row_capacity ;;
    scoped_ptr_destroy (scoped_ptr_release child_ptr) ;;;
    ret result.

(** [RegexpReplaceExpression::CreateBoundBinaryExpression]: both bound
    children go into scoped pointers, the left type is checked, then the
    right type; when both are STRING the children are released to
    [BoundRegexpReplace], with the pattern between them. On a throw the
    scoped pointers are destroyed in the reverse order of their declaration:
    [right_ptr], then [left_ptr]. *)
Definition RegexpReplaceExpression_CreateBoundBinaryExpression
    (left_ : Expression) (pattern_ : string) (right_ : Expression)
    (schema : TupleSchema) (allocator : BufferAllocator)
    (row_capacity : rowcount_t) (left right : BoundExpression)
  : M (FailureOrOwned BoundExpression) :=
  let this := RegexpReplaceExpression left_ pattern_ right_ in
  let left_ptr : scoped_ptr := Some left in
  let right_ptr : scoped_ptr := Some right in
  let left_type := GetExpressionType left in
  if decide (left_type ≠ STRING) then
    scoped_ptr_destroy right_ptr ;;;
    scoped_ptr_destroy left_ptr ;;;
    ret (THROW
      {| return_code := ERROR_ATTRIBUTE_TYPE_MISMATCH;
         message :=
           StringPrintf
             "Invalid argument type (%s) as first argument to %s, STRING expected"
             [c_str (name (GetTypeInfo left_type));
              c_str (ToString this true)] |})
  else
    let right_type := GetExpressionType right in
    if decide (right_type ≠ STRING) then
      scoped_ptr_destroy right_ptr ;;;
      scoped_ptr_destroy left_ptr ;;;
      ret (THROW
        {| return_code := ERROR_ATTRIBUTE_TYPE_MISMATCH;
           message :=
             StringPrintf
               "Invalid argument type (%s) as last argument to %s, STRING expected"
               [c_str (name (GetTypeInfo right_type));
                c_str (ToString this true)] |})
    else
      result <- Invoke BoundRegexpReplace [left; right]
                  (Some pattern_) allocator row_capacity ;;
      scoped_ptr_destroy (scoped_ptr_release right_ptr) ;;;
      scoped_ptr_destroy (scoped_ptr_release left_ptr) ;;;
      ret result.

(** ** Binding *)

(** Modelled from the spec: [PROPAGATE_ON_FAILURE(result)] (declared in
    [exception_macros.h], outside this file) leaves the function with the
    failure of [result], unchanged, when [result] is one; otherwise the
    function goes on with the value [result] holds. *)
Definition PROPAGATE_ON_FAILURE {A B} (result : FailureOrOwned A)
    (rest : A → M (FailureOrOwned B)) : M (FailureOrOwned B) :=
  match result with
  | Failure e => ret (Failure e)
  | Success value => rest value
  end.

(** Modelled from the spec: [ExpressionList::DoBind] (declared in
    [expression.h], outside this file) binds the elements first to last
    and collects the bound ones in order; the first failure ends the loop,
    the elements bound so far are released with the list that holds them. *)
Definition ExpressionList_DoBind
    (bind_element : Expression → M (FailureOrOwned BoundExpression))
  : ExpressionList → BoundExpressionList →
    M (FailureOrOwned BoundExpressionList) :=
  fix loop (expressions_ : ExpressionList) (bound_list : BoundExpressionList) :=
    match expressions_ with
    | [] => ret (Success bound_list)
    | e :: rest =>
        expr <- bind_element e ;;
        match expr with
        | Failure ex => delete_list bound_list ;;; ret (Failure ex)
        | Success b => loop rest (bound_list ++ [b])
        end
    end.

(** Modelled from the spec: [UnaryExpression::DoBind] (declared in
    [basic_expressions.h], outside this file) binds the child and hands the
    bound child, with its ownership, to the hook of the node. *)
Definition UnaryExpression_DoBind
    (bind_child : M (FailureOrOwned BoundExpression))
    (CreateBoundUnaryExpression :
       BoundExpression → M (FailureOrOwned BoundExpression))
  : M (FailureOrOwned BoundExpression) :=
  child_result <- bind_child ;;
  PROPAGATE_ON_FAILURE child_result CreateBoundUnaryExpression.

(** Modelled from the spec: [BinaryExpression::DoBind] (declared in
    [basic_expressions.h], outside this file) binds the left child, then the
    right one; when the right one fails, the result that owns the bound left
    child goes out of scope, which releases it. *)
Definition BinaryExpression_DoBind
    (bind_left bind_right : M (FailureOrOwned BoundExpression))
    (CreateBoundBinaryExpression :
       BoundExpression → BoundExpression → M (FailureOrOwned BoundExpression))
  : M (FailureOrOwned BoundExpression) :=
  left_result <- bind_left ;;
  PROPAGATE_ON_FAILURE left_result (λ bound_left,
    right_result <- bind_right ;;
    match right_result with
    | Failure e => scoped_ptr_destroy (Some bound_left) ;;; ret (Failure e)
    | Success bound_right =>
        CreateBoundBinaryExpression bound_left bound_right
    end).

(** [ConcatExpression::DoBind], given the bind of its argument list. *)
Definition ConcatExpression_DoBind
    (args__DoBind : M (FailureOrOwned BoundExpressionList))
    (allocator : BufferAllocator) (max_row_count : rowcount_t)
  : M (FailureOrOwned BoundExpression) :=
  args <- args__DoBind ;;
  PROPAGATE_ON_FAILURE args (λ released,
    Invoke BoundConcat released None allocator max_row_count).

(** Modelled from the spec: the node that reuses an existing bound factory
    (declared in [expression_utils.h], outside this file) binds its operands
    in order and forwards the bound operands to the factory it was built
    with; it has no type-check hook. *)
Definition ExistingBoundFactoryExpression_DoBind
    (args__DoBind : M (FailureOrOwned BoundExpressionList))
    (bound_factory : BoundFactory)
    (allocator : BufferAllocator) (max_row_count : rowcount_t)
  : M (FailureOrOwned BoundExpression) :=
  args <- args__DoBind ;;
  PROPAGATE_ON_FAILURE args (λ released,
    Invoke bound_factory released None allocator max_row_count).

(** [DoBind], dispatched on the class of the node. Every call is logged. *)
Fixpoint DoBind (e : Expression) (input_schema : TupleSchema)
    (allocator : BufferAllocator) (max_row_count : rowcount_t) {struct e}
  : M (FailureOrOwned BoundExpression) :=
  trace (EvBind e) ;;;
  match e with
  | ExternalExpression _ resolve =>
      match resolve input_schema allocator max_row_count with
      | Failure ex => ret (Failure ex)
      | Success ty => b <- new_bound ty [] ;; ret (Success b)
      end
  | ConcatExpression args_ =>
      ConcatExpression_DoBind
        (ExpressionList_DoBind
           (λ x, DoBind x input_schema allocator max_row_count) args_ [])
        allocator max_row_count
  | RegexpExpression operation_type child_expression_ pattern_ =>
      UnaryExpression_DoBind
        (DoBind child_expression_ input_schema allocator max_row_count)
        (RegexpExpression_CreateBoundUnaryExpression
           operation_type child_expression_ pattern_
           input_schema allocator max_row_count)
  | RegexpExtractExpression child_expression_ pattern_ =>
      UnaryExpression_DoBind
        (DoBind child_expression_ input_schema allocator max_row_count)
        (RegexpExtractExpression_CreateBoundUnaryExpression
           child_expression_ pattern_
           input_schema allocator max_row_count)
  | RegexpReplaceExpression left_ pattern_ right_ =>
      BinaryExpression_DoBind
        (DoBind left_ input_schema allocator max_row_count)
        (DoBind right_ input_schema allocator max_row_count)
        (RegexpReplaceExpression_CreateBoundBinaryExpression
           left_ pattern_ right_ input_schema allocator max_row_count)
  | ExistingBoundFactoryExpression args_ bound_factory _ =>
      ExistingBoundFactoryExpression_DoBind
        (ExpressionList_DoBind
           (λ x, DoBind x input_schema allocator max_row_count) args_ [])
        bound_factory allocator max_row_count
  end.

(** The list bind of a node's arguments. *)
Definition ExpressionList_bind (expressions_ : ExpressionList)
    (input_schema : TupleSchema) (allocator : BufferAllocator)
    (max_row_count : rowcount_t) : M (FailureOrOwned BoundExpressionList) :=
  ExpressionList_DoBind
    (λ x, DoBind x input_schema allocator max_row_count) expressions_ [].

End Binding.

(** ** The public constructors *)

Module supersonic.
Section Constructors.
Context `{Collaborators}.

(** The constructors of the pattern-carrying classes copy
    [pattern.length()] bytes from [pattern.data()] into the node. *)
Definition new_RegexpExpression (operation_type : OperatorId) (m : Memory)
    (arg : Expression) (pattern : StringPiece) : Expression :=
  RegexpExpression operation_type arg
    (string_of_bytes m (piece_data pattern) (piece_length pattern)).

Definition new_RegexpExtractExpression (m : Memory)
    (arg : Expression) (pattern : StringPiece) : Expression :=
  RegexpExtractExpression arg
    (string_of_bytes m (piece_data pattern) (piece_length pattern)).

Definition new_RegexpReplaceExpression (m : Memory)
    (haystack : Expression) (needle : StringPiece) (substitute : Expression)
  : Expression :=
  RegexpReplaceExpression haystack
    (string_of_bytes m (piece_data needle) (piece_length needle)) substitute.

(** Modelled from the spec: [CreateExpressionForExistingBoundFactory]
    (declared in [expression_utils.h], outside this file; one overload per
    number of operands) builds the generic forwarding node from the
    operands, the address of a bound factory and a display template. *)
Definition CreateExpressionForExistingBoundFactory (args : ExpressionList)
    (bound_factory : BoundFactory) (description_pattern : string)
  : Expression :=
  ExistingBoundFactoryExpression args bound_factory description_pattern.

Definition Concat (args : ExpressionList) : Expression :=
  ConcatExpression args.

Definition Length (str : Expression) : Expression :=
  CreateExpressionForExistingBoundFactory [str] BoundLength "LENGTH($0)".

Definition Ltrim (str : Expression) : Expression :=
  CreateExpressionForExistingBoundFactory [str] BoundLtrim "LTRIM($0)".

Definition RegexpPartialMatch (m : Memory) (str : Expression)
    (pattern : StringPiece) : Expression :=
  new_RegexpExpression OPERATOR_REGEXP_PARTIAL m str pattern.

Definition RegexpFullMatch (m : Memory) (str : Expression)
    (pattern : StringPiece) : Expression :=
  new_RegexpExpression OPERATOR_REGEXP_FULL m str pattern.

Definition RegexpExtract (m : Memory) (str : Expression)
    (pattern : StringPiece) : Expression :=
  new_RegexpExtractExpression m str pattern.

Definition RegexpReplace (m : Memory) (haystack : Expression)
    (needle : StringPiece) (substitute : Expression) : Expression :=
  new_RegexpReplaceExpression m haystack needle substitute.

Definition Rtrim (str : Expression) : Expression :=
  CreateExpressionForExistingBoundFactory [str] BoundRtrim "RTRIM($0)".

Definition StringContains (haystack needle : Expression) : Expression :=
  CreateExpressionForExistingBoundFactory [haystack; needle]
    BoundContains "CONTAINS($0, $1)".

Definition StringContainsCI (haystack needle : Expression) : Expression :=
  CreateExpressionForExistingBoundFactory [haystack; needle]
    BoundContainsCI "CONTAINS_CI($0, $1)".

Definition StringOffset (haystack needle : Expression) : Expression :=
  CreateExpressionForExistingBoundFactory [haystack; needle]
    BoundStringOffset "STRING_OFFSET($0, $1)".

Definition StringReplace (haystack needle substitute : Expression)
  : Expression :=
  CreateExpressionForExistingBoundFactory [haystack; needle; substitute]
    BoundStringReplace "STRING_REPLACE($0, $1, $2)".

Definition Substring (str pos length : Expression) : Expression :=
  CreateExpressionForExistingBoundFactory [str; pos; length]
    BoundSubstring "SUBSTRING($0, $1, $2)".

Definition ToLower (str : Expression) : Expression :=
  CreateExpressionForExistingBoundFactory [str] BoundToLower "TO_LOWER($0)".

Definition ToString (expr : Expression) : Expression :=
  CreateExpressionForExistingBoundFactory [expr] BoundToString "TO_STRING($0)".

Definition ToUpper (str : Expression) : Expression :=
  CreateExpressionForExistingBoundFactory [str] BoundToUpper "TO_UPPER($0)".

Definition TrailingSubstring (str pos : Expression) : Expression :=
  CreateExpressionForExistingBoundFactory [str; pos]
    BoundTrailingSubstring "SUBSTRING($0, $1)".

Definition Trim (str : Expression) : Expression :=
  CreateExpressionForExistingBoundFactory [str] BoundTrim "TRIM($0)".

End Constructors.
End supersonic.

(** ** Vocabulary of the properties *)

Section Vocabulary.
Context `{Collaborators}.

Implicit Types (h : Heap) (bs : BoundExpressionList).

(** What a type-mismatch exception reports: the code, and a message that
    holds the name of the actual type, the name of the expected type and the
    textual form of the node as the C string that was formatted, which is
    the whole form when the form holds no NUL byte. *)
Definition reports_mismatch (e : Exception) (actual : DataType)
    (form : string) : Prop :=
  return_code e = ERROR_ATTRIBUTE_TYPE_MISMATCH ∧
  Contains (name (GetTypeInfo actual)) (message e) ∧
  Contains (name (GetTypeInfo STRING)) (message e) ∧
  Contains (c_str form) (message e) ∧
  (c_str form = form → Contains form (message e)).

(** The state right after a call of [DoBind] on [e] has been logged. *)
Definition entered (e : Expression) (h : Heap) : Heap := (trace (EvBind e) h).2.

(** A unary node that declares [CreateBoundUnaryExpression]: its child and
    its hook. *)
Definition unary_node (this : Expression)
  : option (Expression *
            (TupleSchema → BufferAllocator → rowcount_t → BoundExpression →
             M (FailureOrOwned BoundExpression))) :=
  match this with
  | RegexpExpression op c p =>
      Some (c, RegexpExpression_CreateBoundUnaryExpression op c p)
  | RegexpExtractExpression c p =>
      Some (c, RegexpExtractExpression_CreateBoundUnaryExpression c p)
  | _ => None
  end.

(** The bound factory a node of this file calls, and the pattern it
    passes along. *)
Definition node_factory (this : Expression) : option BoundFactory :=
  match this with
  | ExternalExpression _ _ => None
  | ConcatExpression _ => Some BoundConcat
  | RegexpExpression op _ _ => Some (BoundGeneralRegexp op)
  | RegexpExtractExpression _ _ => Some BoundRegexpExtract
  | RegexpReplaceExpression _ _ _ => Some BoundRegexpReplace
  | ExistingBoundFactoryExpression _ f _ => Some f
  end.

Definition node_pattern (this : Expression) : option string :=
  match this with
  | RegexpExpression _ _ p
  | RegexpExtractExpression _ p
  | RegexpReplaceExpression _ p _ => Some p
  | _ => None
  end.

(** The argument list of a node with any number of operands. *)
Definition variadic_args (this : Expression) : option ExpressionList :=
  match this with
  | ConcatExpression args => Some args
  | ExistingBoundFactoryExpression args _ _ => Some args
  | _ => None
  end.

(** The exceptions the hooks throw, with their messages written out. *)
Definition unary_mismatch (actual : DataType) (form : string) : Exception :=
  {| return_code := ERROR_ATTRIBUTE_TYPE_MISMATCH;
     message := "Invalid argument type (" +:+ c_str (name (GetTypeInfo actual))
                  +:+ ") to " +:+ c_str form +:+ ", STRING expected" |}.

Definition binary_mismatch (actual : DataType) (position form : string)
  : Exception :=
  {| return_code := ERROR_ATTRIBUTE_TYPE_MISMATCH;
     message := "Invalid argument type (" +:+ c_str (name (GetTypeInfo actual))
                  +:+ (") as " +:+ position +:+ " argument to ")
                  +:+ c_str form +:+ ", STRING expected" |}.

(** The caller of a function owns [bs] in [h]: the objects are distinct and
    all of them are live. *)
Definition owned bs h : Prop :=
  NoDup (footprints bs) ∧ ∀ a, a ∈ footprints bs → a ∈ live h.

(** What a function that received the ownership of [bs] leaves behind:
    nothing was released twice; a failure has released exactly [bs]; a
    success returns a new object that owns [bs]. *)
Definition settles bs h (res : FailureOrOwned BoundExpression * Heap) : Prop :=
  faults res.2 = faults h ∧
  match res.1 with
  | Failure _ => live res.2 = live h ∖ list_to_set (footprints bs)
  | Success b =>
      bound_children b = bs ∧ (bound_addr b ∉ live h) ∧
      live res.2 = {[ bound_addr b ]} ∪ live h
  end.

(** What a bind leaves behind: nothing was released twice; a failure keeps
    no new object alive; a success returns a tree of new objects, all of
    them live. *)
Definition frames h (res : FailureOrOwned BoundExpression * Heap) : Prop :=
  faults res.2 = faults h ∧
  match res.1 with
  | Failure _ => live res.2 = live h
  | Success b =>
      NoDup (footprint b) ∧ (∀ a, a ∈ footprint b → a ∉ live h) ∧
      live res.2 = list_to_set (footprint b) ∪ live h
  end.

(** The expressions on which [DoBind] was called, oldest first. *)
Fixpoint bind_events (l : list Event) : ExpressionList :=
  match l with
  | [] => []
  | EvBind e :: rest => e :: bind_events rest
  | _ :: rest => bind_events rest
  end.

(** The nodes of a tree, parents first, operands in argument order. *)
Fixpoint preorder (e : Expression) : ExpressionList :=
  e :: match e with
       | ExternalExpression _ _ => []
       | ConcatExpression args => flat_map preorder args
       | RegexpExpression _ c _ => preorder c
       | RegexpExtractExpression c _ => preorder c
       | RegexpReplaceExpression l _ r => preorder l ++ preorder r
       | ExistingBoundFactoryExpression args _ _ => flat_map preorder args
       end.

(** A logged event is in order when, if it is a factory call that carries a
    pattern, the callee is one of the regexp factories and the operands are
    as many as it takes (one for a match or an extraction, two for a
    replacement), all of type STRING. *)
Definition checked_event (ev : Event) : Prop :=
  match ev with
  | EvCall c =>
      match pattern_arg c with
      | None => True
      | Some _ =>
          Forall (λ b, GetExpressionType b = STRING) (operands c) ∧
          match callee c with
          | BoundGeneralRegexp _ | BoundRegexpExtract =>
              List.length (operands c) = 1
          | BoundRegexpReplace => List.length (operands c) = 2
          | _ => False
          end
      end
  | _ => True
  end.

(** The log of [h'] is the log of [h] followed by events that satisfy [P]. *)
Definition extends_log (P : Event → Prop) (h h' : Heap) : Prop :=
  ∃ new, log h' = log h ++ new ∧ Forall P new.

(** The bound factories called, each with the pattern it was given, oldest
    first. *)
Fixpoint call_events (l : list Event) : list (BoundFactory * option string) :=
  match l with
  | [] => []
  | EvCall c :: rest => (callee c, pattern_arg c) :: call_events rest
  | _ :: rest => call_events rest
  end.

(** The call a node makes to its bound factory, and the calls of a tree,
    operands first and in argument order, the node last. *)
Definition node_call (e : Expression) : list (BoundFactory * option string) :=
  match node_factory e with
  | Some factory => [(factory, node_pattern e)]
  | None => []
  end.

Fixpoint postorder_calls (e : Expression)
  : list (BoundFactory * option string) :=
  match e with
  | ExternalExpression _ _ => []
  | ConcatExpression args => flat_map postorder_calls args
  | RegexpExpression _ c _ => postorder_calls c
  | RegexpExtractExpression c _ => postorder_calls c
  | RegexpReplaceExpression l _ r => postorder_calls l ++ postorder_calls r
  | ExistingBoundFactoryExpression args _ _ => flat_map postorder_calls args
  end ++ node_call e.

(** The run [res] from [h] has added to the record [observe] of the log the
    items [seen], which are the first items of [expected], and all of them
    if it succeeded. *)
Definition follows {X A} (observe : list Event → list X) (h : Heap)
    (res : FailureOrOwned A * Heap) (expected : list X) : Prop :=
  ∃ seen,
    observe (log res.2) = observe (log h) ++ seen ∧
    seen `prefix_of` expected ∧
    (is_failure res.1 = false → seen = expected).

End Vocabulary.

(** ** A small engine to run the embedding on *)

Module Sample.

(** A schema lists attribute names with their types. *)
Definition schema := list (string * DataType).

Fixpoint lookup_attribute (attribute : string) (s : schema) : option DataType :=
  match s with
  | [] => None
  | (n, t) :: rest =>
      if String.eqb n attribute then Some t else lookup_attribute attribute rest
  end.

(** Sample verdicts: the match factories refuse an empty pattern, LENGTH and
    STRING_OFFSET want STRING operands, the others accept what they get. *)
Definition verdict (call : FactoryCall unit) : FailureOrOwned DataType :=
  match callee call with
  | BoundGeneralRegexp _ =>
      match pattern_arg call with
      | Some EmptyString | None =>
          Failure {| return_code := ERROR_INVALID_ARGUMENT_VALUE;
                     message := "empty pattern" |}
      | Some _ => Success BOOL
      end
  | BoundLength | BoundStringOffset =>
      if forallb (λ b, bool_decide (bound_type b = STRING)) (operands call)
      then Success INT32
      else Failure {| return_code := ERROR_ATTRIBUTE_TYPE_MISMATCH;
                      message := "STRING operands expected" |}
  | BoundContains | BoundContainsCI => Success BOOL
  | _ => Success STRING
  end.

(** Sample collaborators: the allocator is a unit value and the description
    formats print the operator name around the operands. *)
#[export] Instance engine : Collaborators := {|
  TupleSchema := schema;
  BufferAllocator := unit;
  UnaryExpressionTraits_FormatDescription op child :=
    match op with
    | OPERATOR_REGEXP_FULL => StringPrintf "REGEXP_FULL(%s)" [c_str child]
    | _ => StringPrintf "REGEXP_PARTIAL(%s)" [c_str child]
    end;
  BinaryExpressionTraits_FormatDescription op l r :=
    StringPrintf "REGEXP_REPLACE(%s, %s)" [c_str l; c_str r];
  factory_verdict := verdict |}.

(** A reference to an attribute of the input, by name. *)
Definition NamedAttribute (attribute : string) : Expression :=
  ExternalExpression (λ _, attribute)
    (λ s _ _,
       match lookup_attribute attribute s with
       | Some t => Success t
       | None => Failure {| return_code := ERROR_ATTRIBUTE_MISSING;
                            message := attribute |}
       end).

Definition input : schema :=
  [("str_col", STRING); ("int_col", INT32); ("other", STRING)].

Definition empty_heap : Heap := {| live := ∅; faults := []; log := [] |}.

(** Caller memory holding the bytes [a+] at address 0, then zeroes. *)
Definition memory : Memory :=
  λ a, match a with 0 => "a" | 1 => "+" | _ => "000" end%char.

Definition a_plus : StringPiece := {| piece_data := 0; piece_length := 2 |}.

(** Operands, bound objects and stores for the runs below. *)
Definition int_col : Expression := NamedAttribute "int_col".
Definition str_col : Expression := NamedAttribute "str_col".
Definition other : Expression := NamedAttribute "other".
Definition missing : Expression := NamedAttribute "nope".

Definition bound_int : BoundExpression := BoundNode 0 INT32 [].
Definition bound_str : BoundExpression := BoundNode 0 STRING [].
Definition bound_str' : BoundExpression := BoundNode 1 STRING [].

(** A store where the addresses 0 and 1 are live. *)
Definition two_live : Heap := {| live := {[ 0; 1 ]}; faults := []; log := [] |}.

(** What a run leaves: the result, the live addresses and the faults. *)
Definition outcome {A} (run : A * Heap) : A * list nat * list nat :=
  (run.1, elements (live run.2), faults run.2).

End Sample.

(** * Properties *)

(** ** Byte strings *)

Module Str.

Lemma append_nil_l (s : string) : "" +:+ s = s.
Proof. reflexivity. Qed.

Lemma append_cons (c : ascii) (s t : string) :
  String c s +:+ t = String c (s +:+ t).
Proof. reflexivity. Qed.

Lemma append_nil_r (s : string) : s +:+ "" = s.
Proof.
  induction s as [|c s IH]; [done | by rewrite append_cons, IH].
Qed.

Lemma append_assoc (a b c : string) : (a +:+ b) +:+ c = a +:+ (b +:+ c).
Proof.
  induction a as [|x a IH]; [done | by rewrite !append_cons, IH].
Qed.

End Str.

(** ** C strings and formatted messages *)

Lemma c_str_idempotent (s : string) : c_str (c_str s) = c_str s.
Proof.
  induction s as [|c s IH]; [done|].
  simpl. destruct (Ascii.eqb c "000") eqn:E; [done|].
  simpl. by rewrite E, IH.
Qed.

Lemma c_str_append (a b : string) :
  c_str a = a → c_str (a +:+ b) = a +:+ c_str b.
Proof.
  induction a as [|c a IH]; [done|].
  rewrite Str.append_cons. simpl.
  destruct (Ascii.eqb c "000") eqn:E; [done|].
  intros [= Ha]. by rewrite IH.
Qed.

Lemma c_str_type_name (t : DataType) :
  c_str (name (GetTypeInfo t)) = name (GetTypeInfo t).
Proof. by destruct t. Qed.

Lemma StringPrintf_mismatch (actual form : string) :
  StringPrintf "Invalid argument type (%s) to %s, STRING expected"
    [actual; form]
  = "Invalid argument type (" +:+ actual +:+ ") to " +:+ form
      +:+ ", STRING expected".
Proof. reflexivity. Qed.

Lemma StringPrintf_mismatch_first (actual form : string) :
  StringPrintf
    "Invalid argument type (%s) as first argument to %s, STRING expected"
    [actual; form]
  = "Invalid argument type (" +:+ actual +:+ ") as first argument to "
      +:+ form +:+ ", STRING expected".
Proof. reflexivity. Qed.

Lemma StringPrintf_mismatch_last (actual form : string) :
  StringPrintf
    "Invalid argument type (%s) as last argument to %s, STRING expected"
    [actual; form]
  = "Invalid argument type (" +:+ actual +:+ ") as last argument to "
      +:+ form +:+ ", STRING expected".
Proof. reflexivity. Qed.

Lemma Contains_middle (before s after : string) :
  Contains s (before +:+ s +:+ after).
Proof. by exists before, after. Qed.

Lemma reports_mismatch_intro (actual : DataType) (form role : string) :
  reports_mismatch
    {| return_code := ERROR_ATTRIBUTE_TYPE_MISMATCH;
       message := "Invalid argument type (" +:+ c_str (name (GetTypeInfo actual))
                    +:+ role +:+ c_str form +:+ ", STRING expected" |}
    actual form.
Proof.
  unfold reports_mismatch. cbn [return_code message]. repeat split.
  - rewrite c_str_type_name. apply Contains_middle.
  - exists ("Invalid argument type (" +:+ c_str (name (GetTypeInfo actual))
            +:+ role +:+ c_str form +:+ ", "), " expected".
    by rewrite !Str.append_assoc.
  - exists ("Invalid argument type (" +:+ c_str (name (GetTypeInfo actual))
            +:+ role), ", STRING expected".
    by rewrite !Str.append_assoc.
  - intros ->.
    exists ("Invalid argument type (" +:+ c_str (name (GetTypeInfo actual))
            +:+ role), ", STRING expected".
    by rewrite !Str.append_assoc.
Qed.

(** ** The equations of [DoBind], class by class *)

Section Properties.
Context `{Collaborators}.
Local Open Scope bind_scope.

Implicit Types (schema : TupleSchema) (allocator : BufferAllocator).
Implicit Types (rows : rowcount_t) (h : Heap) (child : BoundExpression).

Lemma bind_run {A B} (c : M A) (k : A → M B) h :
  bind c k h = k (c h).1 (c h).2.
Proof. unfold bind. by destruct (c h). Qed.

Lemma DoBind_RegexpExpression op c p schema allocator rows :
  DoBind (RegexpExpression op c p) schema allocator rows
  = (trace (EvBind (RegexpExpression op c p)) ;;;
     UnaryExpression_DoBind (DoBind c schema allocator rows)
       (RegexpExpression_CreateBoundUnaryExpression op c p
          schema allocator rows)).
Proof. reflexivity. Qed.

Lemma DoBind_RegexpExtractExpression c p schema allocator rows :
  DoBind (RegexpExtractExpression c p) schema allocator rows
  = (trace (EvBind (RegexpExtractExpression c p)) ;;;
     UnaryExpression_DoBind (DoBind c schema allocator rows)
       (RegexpExtractExpression_CreateBoundUnaryExpression c p
          schema allocator rows)).
Proof. reflexivity. Qed.

Lemma DoBind_RegexpReplaceExpression l p r schema allocator rows :
  DoBind (RegexpReplaceExpression l p r) schema allocator rows
  = (trace (EvBind (RegexpReplaceExpression l p r)) ;;;
     BinaryExpression_DoBind
       (DoBind l schema allocator rows) (DoBind r schema allocator rows)
       (RegexpReplaceExpression_CreateBoundBinaryExpression l p r
          schema allocator rows)).
Proof. reflexivity. Qed.

Lemma DoBind_ConcatExpression args schema allocator rows :
  DoBind (ConcatExpression args) schema allocator rows
  = (trace (EvBind (ConcatExpression args)) ;;;
     ConcatExpression_DoBind
       (ExpressionList_bind args schema allocator rows) allocator rows).
Proof. reflexivity. Qed.

Lemma DoBind_ExistingBoundFactoryExpression args f d schema allocator rows :
  DoBind (ExistingBoundFactoryExpression args f d) schema allocator rows
  = (trace (EvBind (ExistingBoundFactoryExpression args f d)) ;;;
     ExistingBoundFactoryExpression_DoBind
       (ExpressionList_bind args schema allocator rows) f allocator rows).
Proof. reflexivity. Qed.

Lemma DoBind_ExternalExpression describe resolve schema allocator rows :
  DoBind (ExternalExpression describe resolve) schema allocator rows
  = (trace (EvBind (ExternalExpression describe resolve)) ;;;
     match resolve schema allocator rows with
     | Failure ex => ret (Failure ex)
     | Success ty => b <- new_bound ty [] ;; ret (Success b)
     end).
Proof. reflexivity. Qed.

Lemma DoBind_unary_node this c hook schema allocator rows :
  unary_node this = Some (c, hook) →
  DoBind this schema allocator rows
  = (trace (EvBind this) ;;;
     UnaryExpression_DoBind (DoBind c schema allocator rows)
       (hook schema allocator rows)).
Proof. destruct this; intros [= <- <-]; reflexivity. Qed.

(** ** The hooks, case by case *)

Lemma unary_hook_rejects this c hook schema allocator rows child h :
  unary_node this = Some (c, hook) →
  GetExpressionType child ≠ STRING →
  hook schema allocator rows child h
  = (Failure (unary_mismatch (GetExpressionType child) (ToString this true)),
     (delete child h).2).
Proof.
  intros Hnode Hty.
  destruct this; try discriminate; injection Hnode as <- <-.
  - unfold RegexpExpression_CreateBoundUnaryExpression.
    destruct (decide _) as [_|Hn]; [|done]. reflexivity.
  - unfold RegexpExtractExpression_CreateBoundUnaryExpression.
    destruct (decide _) as [_|Hn]; [|done]. reflexivity.
Qed.

Lemma run_then_release {A} (c : M A) h :
  (result <- c ;;
   scoped_ptr_destroy (scoped_ptr_release None) ;;; ret result) h = c h.
Proof.
  rewrite bind_run. cbn [scoped_ptr_release scoped_ptr_destroy].
  rewrite bind_run. unfold ret. by destruct (c h).
Qed.

Lemma unary_hook_accepts this c hook schema allocator rows child h :
  unary_node this = Some (c, hook) →
  GetExpressionType child = STRING →
  ∃ factory,
    node_factory this = Some factory ∧
    hook schema allocator rows child h
    = Invoke factory [child] (node_pattern this) allocator rows h.
Proof.
  intros Hnode Hty.
  destruct this; try discriminate; injection Hnode as <- <-.
  - exists (BoundGeneralRegexp operation_type). split; [done|].
    unfold RegexpExpression_CreateBoundUnaryExpression.
    destruct (decide _) as [Hn|_]; [done|].
    apply (run_then_release (Invoke _ _ _ _ _)).
  - exists BoundRegexpExtract. split; [done|].
    unfold RegexpExtractExpression_CreateBoundUnaryExpression.
    destruct (decide _) as [Hn|_]; [done|].
    apply (run_then_release (Invoke _ _ _ _ _)).
Qed.

Lemma replace_hook_rejects_first l p r schema allocator rows left right h :
  GetExpressionType left ≠ STRING →
  RegexpReplaceExpression_CreateBoundBinaryExpression l p r
    schema allocator rows left right h
  = (Failure (binary_mismatch (GetExpressionType left) "first"
                (ToString (RegexpReplaceExpression l p r) true)),
     (delete left (delete right h).2).2).
Proof.
  intros Hty. unfold RegexpReplaceExpression_CreateBoundBinaryExpression.
  destruct (decide _) as [_|Hn]; [|done]. reflexivity.
Qed.

Lemma replace_hook_rejects_last l p r schema allocator rows left right h :
  GetExpressionType left = STRING →
  GetExpressionType right ≠ STRING →
  RegexpReplaceExpression_CreateBoundBinaryExpression l p r
    schema allocator rows left right h
  = (Failure (binary_mismatch (GetExpressionType right) "last"
                (ToString (RegexpReplaceExpression l p r) true)),
     (delete left (delete right h).2).2).
Proof.
  intros Hl Hr. unfold RegexpReplaceExpression_CreateBoundBinaryExpression.
  destruct (decide _) as [Hn|_]; [done|].
  destruct (decide _) as [_|Hn]; [|done]. reflexivity.
Qed.

Lemma replace_hook_accepts l p r schema allocator rows left right h :
  GetExpressionType left = STRING →
  GetExpressionType right = STRING →
  RegexpReplaceExpression_CreateBoundBinaryExpression l p r
    schema allocator rows left right h
  = Invoke BoundRegexpReplace [left; right] (Some p) allocator rows h.
Proof.
  intros Hl Hr. unfold RegexpReplaceExpression_CreateBoundBinaryExpression.
  destruct (decide _) as [Hn|_]; [done|].
  destruct (decide _) as [Hn|_]; [done|].
  rewrite bind_run. cbn [scoped_ptr_release scoped_ptr_destroy].
  rewrite !bind_run. unfold ret. by destruct (Invoke _ _ _ _ _ h).
Qed.

Lemma unary_mismatch_reports actual form :
  reports_mismatch (unary_mismatch actual form) actual form.
Proof. apply (reports_mismatch_intro actual form ") to "). Qed.

Lemma binary_mismatch_reports actual position form :
  reports_mismatch (binary_mismatch actual position form) actual form.
Proof.
  apply (reports_mismatch_intro actual form
           (") as " +:+ position +:+ " argument to ")).
Qed.

End Properties.

(** ** Ownership on the free store *)

Section Ownership.
Context `{Collaborators}.
Local Open Scope bind_scope.

Implicit Types (schema : TupleSchema) (allocator : BufferAllocator).
Implicit Types (rows : rowcount_t) (h : Heap) (b : BoundExpression).
Implicit Types (bs : BoundExpressionList).

Lemma footprints_cons b bs : footprints (b :: bs) = footprint b ++ footprints bs.
Proof. reflexivity. Qed.

Lemma footprints_app bs bs' :
  footprints (bs ++ bs') = footprints bs ++ footprints bs'.
Proof. apply flat_map_app. Qed.

Lemma footprints_singleton b : footprints [b] = footprint b.
Proof. unfold footprints. simpl. by rewrite app_nil_r. Qed.

Lemma footprint_node a ty bs : footprint (BoundNode a ty bs) = a :: footprints bs.
Proof. reflexivity. Qed.

Lemma filter_dead_nil (l : list nat) (X : gset nat) :
  (∀ a, a ∈ l → a ∈ X) → filter (λ a, a ∉ X) l = [].
Proof.
  induction l as [|x l IH]; intros Hl; [done|].
  rewrite filter_cons_False.
  - apply IH. intros a Ha. apply Hl. by right.
  - intros Hx. apply Hx, Hl. by left.
Qed.

Lemma delete_live b h :
  live (delete b h).2 = live h ∖ list_to_set (footprint b).
Proof. reflexivity. Qed.

Lemma delete_faults b h :
  (∀ a, a ∈ footprint b → a ∈ live h) → faults (delete b h).2 = faults h.
Proof.
  intros Hb. simpl. rewrite filter_dead_nil; [|done]. apply app_nil_r.
Qed.

Lemma delete_log b h : log (delete b h).2 = log h ++ [EvDelete b].
Proof. reflexivity. Qed.

Lemma delete_list_cons b bs h :
  delete_list (b :: bs) h = delete_list bs (delete b h).2.
Proof. reflexivity. Qed.

Lemma delete_list_live bs h :
  live (delete_list bs h).2 = live h ∖ list_to_set (footprints bs).
Proof.
  revert h. induction bs as [|b bs IH]; intros h.
  - simpl. set_solver.
  - rewrite delete_list_cons, IH, delete_live, footprints_cons.
    set_solver.
Qed.

Lemma owned_cons b bs h :
  owned (b :: bs) h →
  (∀ a, a ∈ footprint b → a ∈ live h) ∧ owned bs (delete b h).2.
Proof.
  intros [Hnd Hin]. rewrite footprints_cons in Hnd, Hin.
  apply NoDup_app in Hnd as (_ & Hdisj & Hnd).
  split; [set_solver|]. split; [done|].
  intros a Ha. rewrite delete_live. set_solver.
Qed.

Lemma delete_list_faults bs h :
  owned bs h → faults (delete_list bs h).2 = faults h.
Proof.
  revert h. induction bs as [|b bs IH]; intros h Hown; [done|].
  apply owned_cons in Hown as [Hb Hbs].
  rewrite delete_list_cons, IH, delete_faults; done.
Qed.

Lemma owned_frame bs h h' : live h' = live h → owned bs h → owned bs h'.
Proof. intros Hl [? ?]. split; [done|]. by rewrite Hl. Qed.

(** A factory call settles the operands it was given. *)
Lemma Invoke_settles factory bs pattern allocator rows h :
  owned bs h → settles bs h (Invoke factory bs pattern allocator rows h).
Proof.
  intros Hown. unfold Invoke. rewrite bind_run.
  set (h1 := (trace _ h).2).
  assert (Hown1 : owned bs h1) by by apply (owned_frame bs h).
  destruct (factory_verdict _) as [ty|e].
  - rewrite bind_run. split; [done|]. simpl.
    split; [done|]. split; [apply is_fresh | done].
  - rewrite bind_run. split; simpl.
    + by rewrite delete_list_faults.
    + by rewrite delete_list_live.
Qed.

Lemma settles_frames h0 bs h res :
  owned bs h → faults h = faults h0 →
  (∀ a, a ∈ footprints bs → a ∉ live h0) →
  live h = list_to_set (footprints bs) ∪ live h0 →
  settles bs h res → frames h0 res.
Proof.
  intros [Hnd Hin] Hf Hnew Hlive [Hf' Hres]. split; [congruence|].
  destruct res as [[[a ty children]|e] h1];
    cbn [fst snd bound_children bound_addr] in *.
  - destruct Hres as (-> & Ha & Hl). rewrite footprint_node.
    split; [|split].
    + apply NoDup_cons. split; [|done]. intros Hbs. by apply Ha, Hin.
    + intros x [->|Hx]%elem_of_cons; [|by apply Hnew].
      rewrite Hlive in Ha. set_solver.
    + rewrite Hl, Hlive. set_solver.
  - rewrite Hres, Hlive. set_solver.
Qed.

Lemma Invoke_frames h0 factory bs pattern allocator rows h :
  owned bs h → faults h = faults h0 →
  (∀ a, a ∈ footprints bs → a ∉ live h0) →
  live h = list_to_set (footprints bs) ∪ live h0 →
  frames h0 (Invoke factory bs pattern allocator rows h).
Proof.
  intros Hown Hf Hnew Hlive.
  eapply settles_frames; [done..|]. by apply Invoke_settles.
Qed.

(** The list bind, from any list of elements already bound. *)
Lemma ExpressionList_DoBind_frames bind_element (l : ExpressionList) :
  Forall (λ e, ∀ h, frames h (bind_element e h)) l →
  ∀ acc h, owned acc h →
    let res := ExpressionList_DoBind bind_element l acc h in
    faults res.2 = faults h ∧
    match res.1 with
    | Failure _ => live res.2 = live h ∖ list_to_set (footprints acc)
    | Success bs =>
        ∃ new, bs = acc ++ new ∧ owned bs res.2 ∧
               (∀ a, a ∈ footprints new → a ∉ live h) ∧
               live res.2 = list_to_set (footprints new) ∪ live h
    end.
Proof.
  induction 1 as [|e l He _ IH]; intros acc h Hown.
  - simpl. split; [done|]. exists []. rewrite app_nil_r.
    split; [done|]. split; [done|]. split; [set_solver|]. set_solver.
  - cbn [ExpressionList_DoBind]. rewrite bind_run.
    destruct (He h) as [Hf Hres].
    destruct (bind_element e h) as [[b|ex] h1]; simpl in Hf, Hres.
    + destruct Hres as (Hnd & Hnew & Hlive).
      assert (Hown' : owned (acc ++ [b]) h1).
      { destruct Hown as [Hnd' Hin]. split.
        - rewrite footprints_app, footprints_singleton.
          apply NoDup_app. split; [done|]. split; [|done].
          intros a Ha Hb. by apply (Hnew a), Hin.
        - intros a. rewrite footprints_app, footprints_singleton, Hlive.
          set_solver. }
      specialize (IH (acc ++ [b]) h1 Hown'). simpl in IH |- *.
      destruct IH as [Hf' IH]. split; [congruence|].
      destruct (ExpressionList_DoBind _ _ _ _).1 as [bs|ex'].
      * destruct IH as (new & -> & Hbs & Hnew' & Hlive').
        rewrite <- app_assoc in Hbs |- *.
        exists (b :: new). split; [done|].
        split; [done|]. rewrite footprints_cons. split.
        -- intros a [Ha|Ha]%elem_of_app; [by apply Hnew|].
           intros Hl. apply (Hnew' a Ha). rewrite Hlive. set_solver.
        -- rewrite Hlive', Hlive. set_solver.
      * rewrite IH, Hlive, footprints_app, footprints_singleton.
        set_solver.
    + cbn [fst snd]. rewrite bind_run. unfold ret. cbn [fst snd].
      rewrite delete_list_faults, delete_list_live, Hres.
      * done.
      * by apply (owned_frame acc h).
Qed.

Lemma Expression_nested_ind (P : Expression → Prop) :
  (∀ describe resolve, P (ExternalExpression describe resolve)) →
  (∀ args, Forall P args → P (ConcatExpression args)) →
  (∀ op c p, P c → P (RegexpExpression op c p)) →
  (∀ c p, P c → P (RegexpExtractExpression c p)) →
  (∀ l p r, P l → P r → P (RegexpReplaceExpression l p r)) →
  (∀ args f d, Forall P args → P (ExistingBoundFactoryExpression args f d)) →
  ∀ e, P e.
Proof.
  intros HE HC HR HX HP HF.
  fix IH 1. intros [describe resolve|args|op c p|c p|l p r|args f d].
  - apply HE.
  - apply HC. induction args as [|a args IHargs]; constructor;
      [apply IH | apply IHargs].
  - apply HR, IH.
  - apply HX, IH.
  - apply HP; apply IH.
  - apply HF. induction args as [|a args IHargs]; constructor;
      [apply IH | apply IHargs].
Qed.

(** The hooks settle the bound children they were given. *)
Lemma unary_hook_settles this c hook schema allocator rows child h :
  unary_node this = Some (c, hook) →
  owned [child] h →
  settles [child] h (hook schema allocator rows child h).
Proof.
  intros Hnode Hown.
  destruct (decide (GetExpressionType child = STRING)) as [Hty|Hty].
  - destruct (unary_hook_accepts this c hook schema allocator rows child h
                Hnode Hty) as (factory & _ & ->).
    by apply Invoke_settles.
  - rewrite (unary_hook_rejects this c hook) by done.
    destruct Hown as [Hnd Hin]. rewrite footprints_singleton in Hnd, Hin.
    split; cbn [fst snd].
    + by apply delete_faults.
    + by rewrite delete_live, footprints_singleton.
Qed.

Lemma delete_pair_settles left right h e :
  owned [left; right] h →
  settles [left; right] h (Failure e, (delete left (delete right h).2).2).
Proof.
  intros [Hnd Hin].
  rewrite footprints_cons, footprints_singleton in Hnd, Hin.
  apply NoDup_app in Hnd as (_ & Hdisj & _).
  split; cbn [fst snd].
  - rewrite delete_faults; [apply delete_faults|].
    + intros a Ha. apply Hin. set_solver.
    + intros a Ha. rewrite delete_live. set_solver.
  - rewrite !delete_live, footprints_cons, footprints_singleton. set_solver.
Qed.

Lemma replace_hook_settles l p r schema allocator rows left right h :
  owned [left; right] h →
  settles [left; right] h
    (RegexpReplaceExpression_CreateBoundBinaryExpression l p r
       schema allocator rows left right h).
Proof.
  intros Hown.
  destruct (decide (GetExpressionType left = STRING)) as [Hl|Hl].
  - destruct (decide (GetExpressionType right = STRING)) as [Hr|Hr].
    + rewrite replace_hook_accepts by done. by apply Invoke_settles.
    + rewrite replace_hook_rejects_last by done.
      by apply delete_pair_settles.
  - rewrite replace_hook_rejects_first by done.
    by apply delete_pair_settles.
Qed.

Lemma frames_entered e h res : frames (entered e h) res → frames h res.
Proof. done. Qed.

Lemma new_bound_frames ty h :
  frames h ((b <- new_bound ty [] ;; ret (Success b)) h).
Proof.
  rewrite bind_run. split; [done|]. cbn.
  split; [apply NoDup_singleton|]. split; [|set_solver].
  intros a ->%list_elem_of_singleton. apply is_fresh.
Qed.

Lemma UnaryExpression_DoBind_frames bind_child hook h :
  (∀ h, frames h (bind_child h)) →
  (∀ child h1, owned [child] h1 → settles [child] h1 (hook child h1)) →
  frames h (UnaryExpression_DoBind bind_child hook h).
Proof.
  intros Hchild Hhook. unfold UnaryExpression_DoBind. rewrite bind_run.
  destruct (Hchild h) as [Hf Hres].
  destruct (bind_child h) as [[child|e] h1]; cbn [fst snd] in *; [|done].
  destruct Hres as (Hnd & Hnew & Hlive).
  assert (Hown : owned [child] h1).
  { split; rewrite footprints_singleton; [done|].
    intros a Ha. rewrite Hlive. set_solver. }
  apply (settles_frames h [child] h1); try done.
  - by rewrite footprints_singleton.
  - by rewrite footprints_singleton.
  - by apply Hhook.
Qed.

Lemma BinaryExpression_DoBind_frames bind_left bind_right hook h :
  (∀ h, frames h (bind_left h)) →
  (∀ h, frames h (bind_right h)) →
  (∀ left right h1,
     owned [left; right] h1 → settles [left; right] h1 (hook left right h1)) →
  frames h (BinaryExpression_DoBind bind_left bind_right hook h).
Proof.
  intros Hleft Hright Hhook. unfold BinaryExpression_DoBind.
  rewrite bind_run.
  destruct (Hleft h) as [Hf Hres].
  destruct (bind_left h) as [[left|e] h1]; cbn [fst snd] in *; [|done].
  destruct Hres as (Hnd & Hnew & Hlive).
  unfold PROPAGATE_ON_FAILURE. rewrite bind_run.
  destruct (Hright h1) as [Hf' Hres'].
  destruct (bind_right h1) as [[right|e] h2]; cbn [fst snd] in *.
  - destruct Hres' as (Hnd' & Hnew' & Hlive').
    assert (Hown : owned [left; right] h2).
    { split; rewrite footprints_cons, footprints_singleton.
      - apply NoDup_app. split; [done|]. split; [|done].
        intros a Ha Hb. apply (Hnew' a Hb). rewrite Hlive. set_solver.
      - intros a Ha. rewrite Hlive', Hlive. set_solver. }
    apply (settles_frames h [left; right] h2); try done.
    + congruence.
    + rewrite footprints_cons, footprints_singleton.
      intros a [Ha|Ha]%elem_of_app; [by apply Hnew|].
      intros Hl. apply (Hnew' a Ha). rewrite Hlive. set_solver.
    + rewrite footprints_cons, footprints_singleton, Hlive', Hlive.
      set_solver.
    + by apply Hhook.
  - rewrite bind_run. cbn [scoped_ptr_destroy]. unfold ret.
    split; cbn [fst snd].
    + rewrite delete_faults; [congruence|].
      intros a Ha. rewrite Hres', Hlive. set_solver.
    + rewrite delete_live, Hres', Hlive. set_solver.
Qed.

Lemma variadic_frames bind_element args factory allocator rows h :
  Forall (λ e, ∀ h, frames h (bind_element e h)) args →
  frames h
    ((bound <- ExpressionList_DoBind bind_element args [] ;;
      PROPAGATE_ON_FAILURE bound (λ released,
        Invoke factory released None allocator rows)) h).
Proof.
  intros Hargs. rewrite bind_run.
  assert (Hnil : owned [] h) by (split; [constructor | set_solver]).
  destruct (ExpressionList_DoBind_frames bind_element args Hargs [] h Hnil)
    as [Hf Hres].
  destruct (ExpressionList_DoBind bind_element args [] h) as [[bs|e] h1];
    cbn [fst snd PROPAGATE_ON_FAILURE] in *.
  - destruct Hres as (new & -> & Hown & Hnew & Hlive).
    by apply Invoke_frames.
  - split; [done|]. cbn. rewrite Hres. set_solver.
Qed.

(** A bind never releases twice, keeps nothing alive when it fails and
    returns a tree of fresh live objects when it succeeds. *)
Lemma DoBind_frames e :
  ∀ schema allocator rows h, frames h (DoBind e schema allocator rows h).
Proof.
  induction e as [describe resolve|args IH|op c p IH|c p IH|l p r IHl IHr
                 |args f d IH] using Expression_nested_ind;
    intros schema allocator rows h.
  - rewrite DoBind_ExternalExpression, bind_run.
    apply (frames_entered (ExternalExpression describe resolve)).
    destruct (resolve schema allocator rows); [apply new_bound_frames|done].
  - rewrite DoBind_ConcatExpression, bind_run.
    apply (frames_entered (ConcatExpression args)).
    apply variadic_frames.
    eapply Forall_impl; [exact IH|]. intros e He h'. apply He.
  - rewrite DoBind_RegexpExpression, bind_run.
    apply (frames_entered (RegexpExpression op c p)).
    apply UnaryExpression_DoBind_frames; [done|].
    intros child h1.
    by apply (unary_hook_settles (RegexpExpression op c p) c).
  - rewrite DoBind_RegexpExtractExpression, bind_run.
    apply (frames_entered (RegexpExtractExpression c p)).
    apply UnaryExpression_DoBind_frames; [done|].
    intros child h1.
    by apply (unary_hook_settles (RegexpExtractExpression c p) c).
  - rewrite DoBind_RegexpReplaceExpression, bind_run.
    apply (frames_entered (RegexpReplaceExpression l p r)).
    apply BinaryExpression_DoBind_frames; [done..|].
    intros left right h1. apply replace_hook_settles.
  - rewrite DoBind_ExistingBoundFactoryExpression, bind_run.
    apply (frames_entered (ExistingBoundFactoryExpression args f d)).
    apply variadic_frames.
    eapply Forall_impl; [exact IH|]. intros e He h'. apply He.
Qed.

End Ownership.

(** * The claims *)

Section Specification.
Context `{Collaborators}.
Local Open Scope bind_scope.

Implicit Types (schema : TupleSchema) (allocator : BufferAllocator).
Implicit Types (rows : rowcount_t) (h : Heap).
Implicit Types (child left right : BoundExpression).

(** The public constructors with a pattern and one operand build unary
    nodes that declare the hook. *)
Lemma pattern_constructors_unary (m : Memory) (str : Expression)
    (pattern : StringPiece) :
  let p := string_of_bytes m (piece_data pattern) (piece_length pattern) in
  unary_node (supersonic.RegexpPartialMatch m str pattern)
  = Some (str, RegexpExpression_CreateBoundUnaryExpression
                 OPERATOR_REGEXP_PARTIAL str p) ∧
  unary_node (supersonic.RegexpFullMatch m str pattern)
  = Some (str, RegexpExpression_CreateBoundUnaryExpression
                 OPERATOR_REGEXP_FULL str p) ∧
  unary_node (supersonic.RegexpExtract m str pattern)
  = Some (str, RegexpExtractExpression_CreateBoundUnaryExpression str p).
Proof. done. Qed.

(** The form of a [REGEXP_EXTRACT] node is a C string whatever the child
    prints, so the message of its hook holds all of it. *)
Lemma RegexpExtractExpression_form_c_str c p verbose :
  c_str (ToString (RegexpExtractExpression c p) verbose)
  = ToString (RegexpExtractExpression c p) verbose.
Proof.
  change (ToString (RegexpExtractExpression c p) verbose)
    with ("REGEXP_EXTRACT(" +:+ c_str (ToString c verbose) +:+ ")").
  rewrite c_str_append by done. f_equal.
  rewrite c_str_append by apply c_str_idempotent. done.
Qed.

(** C1. Every unary node that carries a pattern (the two match flavours of
    [RegexpExpression], selected by the operator id, and
    [RegexpExtractExpression]) rejects a bound child whose type is not
    STRING: the hook, and so the bind of the node, fails with
    ERROR_ATTRIBUTE_TYPE_MISMATCH, and the message holds the name of the
    actual type, the name STRING and the verbose form of the node (as the C
    string the message is formatted from: the whole form when it holds no
    NUL byte). *)
Theorem unary_pattern_node_type_mismatch
    this c hook schema allocator rows child :
  unary_node this = Some (c, hook) →
  GetExpressionType child ≠ STRING →
  (∀ h, ∃ e h',
     hook schema allocator rows child h = (Failure e, h') ∧
     reports_mismatch e (GetExpressionType child) (ToString this true)) ∧
  (∀ h h1,
     DoBind c schema allocator rows (entered this h) = (Success child, h1) →
     ∃ e h2,
       DoBind this schema allocator rows h = (Failure e, h2) ∧
       reports_mismatch e (GetExpressionType child) (ToString this true)).
Proof.
  intros Hnode Hty. split.
  - intros h. eexists _, _. split.
    + by apply (unary_hook_rejects this c hook).
    + apply unary_mismatch_reports.
  - intros h h1 Hchild. eexists _, _. split.
    + rewrite (DoBind_unary_node this c hook) by done.
      rewrite bind_run. fold (entered this h).
      unfold UnaryExpression_DoBind. rewrite bind_run, Hchild.
      cbn [fst snd PROPAGATE_ON_FAILURE].
      by apply (unary_hook_rejects this c hook).
    + apply unary_mismatch_reports.
Qed.

(** C2. Binding a [RegexpReplaceExpression] checks the haystack (left)
    before the substitute (right). Once both children are bound, to [left]
    and then to [right], the hook runs on them and its failure is the
    failure of the whole bind: a haystack that is not STRING gives the
    message of the first argument, whatever the type of the substitute; a
    STRING haystack with a substitute that is not STRING gives the message
    of the last argument. Both carry ERROR_ATTRIBUTE_TYPE_MISMATCH, the name
    of the actual type, STRING and the verbose form of the node. *)
Theorem regexp_replace_checks_haystack_first
    l p r schema allocator rows left right h :
  let this := RegexpReplaceExpression l p r in
  let result :=
    RegexpReplaceExpression_CreateBoundBinaryExpression l p r
      schema allocator rows left right h in
  (GetExpressionType left ≠ STRING →
   ∃ e, result.1 = Failure e ∧
        reports_mismatch e (GetExpressionType left) (ToString this true) ∧
        message e
        = "Invalid argument type (" +:+ name (GetTypeInfo (GetExpressionType left))
            +:+ ") as first argument to " +:+ c_str (ToString this true)
            +:+ ", STRING expected" ∧
        Contains "first argument" (message e) ∧
        ∀ h0 h1,
          DoBind l schema allocator rows (entered this h0) = (Success left, h1) →
          DoBind r schema allocator rows h1 = (Success right, h) →
          DoBind this schema allocator rows h0 = (Failure e, result.2)) ∧
  (GetExpressionType left = STRING → GetExpressionType right ≠ STRING →
   ∃ e, result.1 = Failure e ∧
        reports_mismatch e (GetExpressionType right) (ToString this true) ∧
        message e
        = "Invalid argument type (" +:+ name (GetTypeInfo (GetExpressionType right))
            +:+ ") as last argument to " +:+ c_str (ToString this true)
            +:+ ", STRING expected" ∧
        Contains "last argument" (message e) ∧
        ∀ h0 h1,
          DoBind l schema allocator rows (entered this h0) = (Success left, h1) →
          DoBind r schema allocator rows h1 = (Success right, h) →
          DoBind this schema allocator rows h0 = (Failure e, result.2)).
Proof.
  intros this result.
  assert (Hbind : ∀ h0 h1,
            DoBind l schema allocator rows (entered this h0) = (Success left, h1) →
            DoBind r schema allocator rows h1 = (Success right, h) →
            DoBind this schema allocator rows h0 = result).
  { intros h0 h1 Hbl Hbr. subst this result.
    rewrite DoBind_RegexpReplaceExpression, bind_run.
    fold (entered (RegexpReplaceExpression l p r) h0).
    unfold BinaryExpression_DoBind. rewrite bind_run, Hbl.
    cbn [fst snd PROPAGATE_ON_FAILURE]. rewrite bind_run, Hbr.
    reflexivity. }
  split.
  - intros Hl.
    assert (Hhook := replace_hook_rejects_first l p r schema allocator rows
                       left right h Hl).
    fold this result in Hhook.
    eexists. split; [by rewrite Hhook|]. split; [apply binary_mismatch_reports|].
    cbn [message binary_mismatch]. rewrite c_str_type_name.
    split; [done|]. split.
    + exists ("Invalid argument type ("
              +:+ name (GetTypeInfo (GetExpressionType left)) +:+ ") as "),
        (" to " +:+ c_str (ToString this true) +:+ ", STRING expected").
      by rewrite !Str.append_assoc.
    + intros h0 h1 Hbl Hbr. rewrite (Hbind h0 h1 Hbl Hbr).
      by rewrite Hhook.
  - intros Hl Hr.
    assert (Hhook := replace_hook_rejects_last l p r schema allocator rows
                       left right h Hl Hr).
    fold this result in Hhook.
    eexists. split; [by rewrite Hhook|]. split; [apply binary_mismatch_reports|].
    cbn [message binary_mismatch]. rewrite c_str_type_name.
    split; [done|]. split.
    + exists ("Invalid argument type ("
              +:+ name (GetTypeInfo (GetExpressionType right)) +:+ ") as "),
        (" to " +:+ c_str (ToString this true) +:+ ", STRING expected").
      by rewrite !Str.append_assoc.
    + intros h0 h1 Hbl Hbr. rewrite (Hbind h0 h1 Hbl Hbr).
      by rewrite Hhook.
Qed.

(** C3. A hook owns the bound children it is given. When its type check
    rejects one, every child it was given is deleted, once, before the
    failure is returned, and no bound factory is called; when all checks
    pass, the children go, untouched, to the bound factory, which then owns
    them. On either path nothing is released twice, a failure leaves none of
    the children alive and a success returns the object that owns them. *)
Theorem hooks_release_or_forward schema allocator rows h :
  (∀ this c hook child,
     unary_node this = Some (c, hook) →
     owned [child] h →
     let result := hook schema allocator rows child h in
     settles [child] h result ∧
     (GetExpressionType child ≠ STRING →
      is_failure result.1 = true ∧
      log result.2 = log h ++ [EvDelete child]) ∧
     (GetExpressionType child = STRING →
      ∃ factory,
        node_factory this = Some factory ∧
        result = Invoke factory [child] (node_pattern this) allocator rows h)) ∧
  (∀ l p r left right,
     owned [left; right] h →
     let result :=
       RegexpReplaceExpression_CreateBoundBinaryExpression l p r
         schema allocator rows left right h in
     settles [left; right] h result ∧
     (GetExpressionType left ≠ STRING ∨ GetExpressionType right ≠ STRING →
      is_failure result.1 = true ∧
      log result.2 = log h ++ [EvDelete right; EvDelete left]) ∧
     (GetExpressionType left = STRING → GetExpressionType right = STRING →
      result = Invoke BoundRegexpReplace [left; right] (Some p)
                 allocator rows h)).
Proof.
  split.
  - intros this c hook child Hnode Hown result. subst result.
    split; [by apply (unary_hook_settles this c)|]. split.
    + intros Hty. rewrite (unary_hook_rejects this c hook) by done. done.
    + intros Hty. by apply (unary_hook_accepts this c hook).
  - intros l p r left right Hown result. subst result.
    split; [by apply replace_hook_settles|]. split.
    + intros Hty.
      destruct (decide (GetExpressionType left = STRING)) as [Hl|Hl].
      * destruct Hty as [Hty|Hty]; [done|].
        rewrite replace_hook_rejects_last by done.
        split; [done|]. cbn [snd]. rewrite !delete_log.
        by rewrite <- app_assoc.
      * rewrite replace_hook_rejects_first by done.
        split; [done|]. cbn [snd]. rewrite !delete_log.
        by rewrite <- app_assoc.
    + intros Hl Hr. by apply replace_hook_accepts.
Qed.

(** ** Order of binding *)

Lemma DoBind_variadic this args factory schema allocator rows :
  variadic_args this = Some args →
  node_factory this = Some factory →
  DoBind this schema allocator rows
  = (trace (EvBind this) ;;;
     bound <- ExpressionList_bind args schema allocator rows ;;
     PROPAGATE_ON_FAILURE bound (λ released,
       Invoke factory released None allocator rows)).
Proof. destruct this; intros [= <-] [= <-]; reflexivity. Qed.

Lemma ExpressionList_DoBind_app bind_element (before rest : ExpressionList)
    acc h :
  ExpressionList_DoBind bind_element (before ++ rest) acc h
  = match ExpressionList_DoBind bind_element before acc h with
    | (Success bound, h1) => ExpressionList_DoBind bind_element rest bound h1
    | (Failure ex, h1) => (Failure ex, h1)
    end.
Proof.
  revert acc h. induction before as [|e before IH]; intros acc h; [done|].
  cbn [app ExpressionList_DoBind]. rewrite !bind_run.
  destruct (bind_element e h) as [[b|ex] h1]; cbn [fst snd].
  - apply IH.
  - rewrite bind_run. unfold ret. cbn [fst snd]. done.
Qed.

Lemma BinaryExpression_DoBind_run bind_left bind_right
    (hook : BoundExpression → BoundExpression →
            M (FailureOrOwned BoundExpression)) h :
  BinaryExpression_DoBind bind_left bind_right hook h
  = match bind_left h with
    | (Failure e, h1) => (Failure e, h1)
    | (Success bound_left, h1) =>
        match bind_right h1 with
        | (Failure e, h2) => (Failure e, (delete bound_left h2).2)
        | (Success bound_right, h2) => hook bound_left bound_right h2
        end
    end.
Proof.
  unfold BinaryExpression_DoBind. rewrite bind_run.
  destruct (bind_left h) as [[left|e] h1]; cbn [fst snd PROPAGATE_ON_FAILURE];
    [|done].
  rewrite bind_run.
  destruct (bind_right h1) as [[right|e] h2]; cbn [fst snd]; [done|].
  rewrite bind_run. done.
Qed.

(** C4. A binary node binds its left child, then its right child, both
    against the schema, allocator and row count it was given. When the left
    bind fails the result and the state are those of the left bind alone:
    the right child is not bound. When the left bind succeeds and the right
    one fails, the bound left child is deleted and the failure of the right
    child is returned. A list of arguments is bound first to last: when an
    argument fails after the ones before it were bound, the result and the
    state do not depend on the arguments after it, which are not bound, and
    the bound ones are deleted. A failing bind of any node leaves no new
    object alive and releases nothing twice. *)
Theorem binding_order_short_circuits schema allocator rows :
  (∀ bind_left bind_right hook h,
     BinaryExpression_DoBind bind_left bind_right hook h
     = match bind_left h with
       | (Failure e, h1) => (Failure e, h1)
       | (Success bound_left, h1) =>
           match bind_right h1 with
           | (Failure e, h2) => (Failure e, (delete bound_left h2).2)
           | (Success bound_right, h2) => hook bound_left bound_right h2
           end
       end) ∧
  (∀ l p r h,
     let this := RegexpReplaceExpression l p r in
     DoBind this schema allocator rows h
     = BinaryExpression_DoBind
         (DoBind l schema allocator rows) (DoBind r schema allocator rows)
         (RegexpReplaceExpression_CreateBoundBinaryExpression l p r
            schema allocator rows)
         (entered this h)) ∧
  (∀ before e after h bound h1 ex h2,
     ExpressionList_bind before schema allocator rows h = (Success bound, h1) →
     DoBind e schema allocator rows h1 = (Failure ex, h2) →
     ExpressionList_bind (before ++ e :: after) schema allocator rows h
     = (Failure ex, (delete_list bound h2).2)) ∧
  (∀ this before e after h bound h1 ex h2,
     variadic_args this = Some (before ++ e :: after) →
     ExpressionList_bind before schema allocator rows (entered this h)
     = (Success bound, h1) →
     DoBind e schema allocator rows h1 = (Failure ex, h2) →
     DoBind this schema allocator rows h
     = (Failure ex, (delete_list bound h2).2)) ∧
  (∀ e h ex h',
     DoBind e schema allocator rows h = (Failure ex, h') →
     live h' = live h ∧ faults h' = faults h).
Proof.
  assert (Hlist : ∀ before e after h bound h1 ex h2,
     ExpressionList_bind before schema allocator rows h = (Success bound, h1) →
     DoBind e schema allocator rows h1 = (Failure ex, h2) →
     ExpressionList_bind (before ++ e :: after) schema allocator rows h
     = (Failure ex, (delete_list bound h2).2)).
  { intros before e after h bound h1 ex h2 Hbefore He.
    unfold ExpressionList_bind in *.
    rewrite ExpressionList_DoBind_app, Hbefore.
    cbn [ExpressionList_DoBind]. rewrite bind_run, He. cbn [fst snd].
    rewrite bind_run. done. }
  split; [apply BinaryExpression_DoBind_run|].
  split.
  { intros l p r h this. subst this.
    by rewrite DoBind_RegexpReplaceExpression, bind_run. }
  split; [exact Hlist|]. split.
  - intros this before e after h bound h1 ex h2 Hargs Hbefore He.
    destruct (node_factory this) as [factory|] eqn:Hf;
      [|by destruct this].
    rewrite (DoBind_variadic this _ factory) by done.
    rewrite bind_run. fold (entered this h). rewrite bind_run.
    by rewrite (Hlist before e after _ bound h1 ex h2).
  - intros e h ex h' He.
    pose proof (DoBind_frames e schema allocator rows h) as [Hf Hl].
    rewrite He in Hf, Hl. done.
Qed.

Lemma Invoke_log factory bound pattern allocator rows h :
  ∃ later,
    log (Invoke factory bound pattern allocator rows h).2
    = log h
      ++ EvCall (Build_FactoryCall factory bound pattern allocator rows)
      :: later.
Proof.
  unfold Invoke. rewrite bind_run. cbn [fst snd].
  destruct (factory_verdict _) as [ty|e].
  - eexists. rewrite bind_run. cbn. by rewrite <- app_assoc.
  - rewrite bind_run. unfold ret. cbn [fst snd].
    assert (Hdel : ∀ bs h0, ∃ later, log (delete_list bs h0).2 = log h0 ++ later).
    { induction bs as [|b bs IH]; intros h0.
      - exists []. by rewrite app_nil_r.
      - rewrite delete_list_cons. destruct (IH (delete b h0).2) as [later ->].
        rewrite delete_log, <- app_assoc. by eexists. }
    destruct (Hdel bound (trace (EvCall (Build_FactoryCall factory bound
                  pattern allocator rows)) h).2) as [later ->].
    cbn. rewrite <- app_assoc. by eexists.
Qed.

(** C5. [Concat] binds its argument list against the schema, allocator and
    row count it was given. A failure of the list bind is the result, as it
    is, and nothing else happens; on success the bound list goes to
    [BoundConcat] with the allocator and the row count, whatever the types
    of the bound elements, and the answer of [BoundConcat] is the result. *)
Theorem concat_bind_propagates_or_forwards args schema allocator rows h :
  let this := supersonic.Concat args in
  DoBind this schema allocator rows h
  = match ExpressionList_bind args schema allocator rows (entered this h) with
    | (Failure e, h1) => (Failure e, h1)
    | (Success bound, h1) => Invoke BoundConcat bound None allocator rows h1
    end ∧
  ∀ bound h1,
    ExpressionList_bind args schema allocator rows (entered this h)
    = (Success bound, h1) →
    ∃ later,
      log (DoBind this schema allocator rows h).2
      = log h1
        ++ EvCall (Build_FactoryCall BoundConcat bound None allocator rows)
        :: later.
Proof.
  intros this.
  assert (Heq : DoBind this schema allocator rows h
    = match ExpressionList_bind args schema allocator rows (entered this h) with
      | (Failure e, h1) => (Failure e, h1)
      | (Success bound, h1) => Invoke BoundConcat bound None allocator rows h1
      end).
  { subst this. unfold supersonic.Concat.
    rewrite DoBind_ConcatExpression, bind_run.
    fold (entered (ConcatExpression args) h).
    unfold ConcatExpression_DoBind. rewrite bind_run.
    by destruct (ExpressionList_bind _ _ _ _ _) as [[bound|e] h1]. }
  split; [exact Heq|].
  intros bound h1 Hlist. rewrite Heq, Hlist. apply Invoke_log.
Qed.

(** ** The pattern *)

Lemma bind_events_app l l' :
  bind_events (l ++ l') = bind_events l ++ bind_events l'.
Proof.
  induction l as [|[e|b|b|c] l IH]; simpl; [done|by rewrite IH|done..].
Qed.

Lemma delete_binds b h : bind_events (log (delete b h).2) = bind_events (log h).
Proof. rewrite delete_log, bind_events_app. simpl. apply app_nil_r. Qed.

Lemma delete_list_binds bs h :
  bind_events (log (delete_list bs h).2) = bind_events (log h).
Proof.
  revert h. induction bs as [|b bs IH]; intros h; [done|].
  by rewrite delete_list_cons, IH, delete_binds.
Qed.

Lemma Invoke_binds factory bound pattern allocator rows h :
  bind_events (log (Invoke factory bound pattern allocator rows h).2)
  = bind_events (log h).
Proof.
  unfold Invoke. rewrite bind_run. cbn [fst snd].
  set (h1 := (trace _ h).2).
  assert (Hh1 : bind_events (log h1) = bind_events (log h)).
  { subst h1. cbn. rewrite bind_events_app. simpl. apply app_nil_r. }
  clearbody h1.
  destruct (factory_verdict _) as [ty|e]; rewrite bind_run.
  - unfold ret, new_bound. cbn [fst snd log].
    rewrite bind_events_app, Hh1. simpl. apply app_nil_r.
  - unfold ret. cbn [fst snd]. by rewrite delete_list_binds.
Qed.

Lemma unary_hook_binds this c hook schema allocator rows child h :
  unary_node this = Some (c, hook) →
  bind_events (log (hook schema allocator rows child h).2)
  = bind_events (log h).
Proof.
  intros Hnode.
  destruct (decide (GetExpressionType child = STRING)) as [Hty|Hty].
  - destruct (unary_hook_accepts this c hook schema allocator rows child h
                Hnode Hty) as (factory & _ & ->).
    apply Invoke_binds.
  - rewrite (unary_hook_rejects this c hook) by done. apply delete_binds.
Qed.

Lemma replace_hook_binds l p r schema allocator rows left right h :
  bind_events
    (log (RegexpReplaceExpression_CreateBoundBinaryExpression l p r
            schema allocator rows left right h).2)
  = bind_events (log h).
Proof.
  destruct (decide (GetExpressionType left = STRING)) as [Hl|Hl].
  - destruct (decide (GetExpressionType right = STRING)) as [Hr|Hr].
    + rewrite replace_hook_accepts by done. apply Invoke_binds.
    + rewrite replace_hook_rejects_last by done. cbn [snd].
      by rewrite !delete_binds.
  - rewrite replace_hook_rejects_first by done. cbn [snd].
    by rewrite !delete_binds.
Qed.

Lemma string_of_bytes_length m s n : String.length (string_of_bytes m s n) = n.
Proof. revert s. induction n as [|n IH]; intros s; simpl; [done|by rewrite IH]. Qed.

Lemma string_of_bytes_get m s n i :
  i < n → String.get i (string_of_bytes m s n) = Some (m (s + i)).
Proof.
  revert s i. induction n as [|n IH]; intros s i Hi; [lia|].
  destruct i as [|i]; simpl.
  - by rewrite Nat.add_0_r.
  - rewrite IH by lia. do 2 f_equal. lia.
Qed.

Lemma string_of_bytes_ext m m' s n :
  (∀ i, i < n → m' (s + i) = m (s + i)) →
  string_of_bytes m' s n = string_of_bytes m s n.
Proof.
  revert s. induction n as [|n IH]; intros s Hm; simpl; [done|].
  f_equal.
  - specialize (Hm 0). rewrite Nat.add_0_r in Hm. apply Hm. lia.
  - apply IH. intros i Hi. specialize (Hm (S i)).
    replace (s + S i) with (S s + i) in Hm by lia. apply Hm. lia.
Qed.

(** C6. The four constructors that take a pattern store, in the node, a
    copy of the [pattern.length()] bytes found at [pattern.data()] when the
    node is built: the node holds these bytes and nothing else of the
    caller's memory. The bind hands exactly this pattern to the bound
    factory of the node, next to the bound children. The pattern is not an
    expression: the only binds a node performs are its own and those of its
    child expressions. *)
Theorem pattern_copied_and_forwarded
    (m : Memory) (pattern : StringPiece) schema allocator rows :
  let p := string_of_bytes m (piece_data pattern) (piece_length pattern) in
  (String.length p = piece_length pattern ∧
   (∀ i, i < piece_length pattern →
         String.get i p = Some (m (piece_data pattern + i))) ∧
   (∀ m' : Memory,
      (∀ i, i < piece_length pattern →
            m' (piece_data pattern + i) = m (piece_data pattern + i)) →
      string_of_bytes m' (piece_data pattern) (piece_length pattern) = p)) ∧
  (∀ str substitute,
     supersonic.RegexpPartialMatch m str pattern
     = RegexpExpression OPERATOR_REGEXP_PARTIAL str p ∧
     supersonic.RegexpFullMatch m str pattern
     = RegexpExpression OPERATOR_REGEXP_FULL str p ∧
     supersonic.RegexpExtract m str pattern = RegexpExtractExpression str p ∧
     supersonic.RegexpReplace m str pattern substitute
     = RegexpReplaceExpression str p substitute) ∧
  (∀ this c hook h child h1,
     unary_node this = Some (c, hook) →
     node_pattern this = Some p →
     DoBind c schema allocator rows (entered this h) = (Success child, h1) →
     GetExpressionType child = STRING →
     ∃ factory,
       node_factory this = Some factory ∧
       DoBind this schema allocator rows h
       = Invoke factory [child] (Some p) allocator rows h1) ∧
  (∀ haystack substitute h left h1 right h2,
     let this := RegexpReplaceExpression haystack p substitute in
     DoBind haystack schema allocator rows (entered this h)
     = (Success left, h1) →
     DoBind substitute schema allocator rows h1 = (Success right, h2) →
     GetExpressionType left = STRING →
     GetExpressionType right = STRING →
     DoBind this schema allocator rows h
     = Invoke BoundRegexpReplace [left; right] (Some p) allocator rows h2) ∧
  (∀ this c hook h,
     unary_node this = Some (c, hook) →
     bind_events (log (DoBind this schema allocator rows h).2)
     = bind_events (log (DoBind c schema allocator rows (entered this h)).2)) ∧
  (∀ haystack q substitute h,
     let this := RegexpReplaceExpression haystack q substitute in
     let left_run := DoBind haystack schema allocator rows (entered this h) in
     bind_events (log (DoBind this schema allocator rows h).2)
     = match left_run.1 with
       | Failure _ => bind_events (log left_run.2)
       | Success _ =>
           bind_events
             (log (DoBind substitute schema allocator rows left_run.2).2)
       end).
Proof.
  intros p. split; [|split; [|split; [|split; [|split]]]].
  - split; [apply string_of_bytes_length|].
    split; [intros i Hi; by apply string_of_bytes_get|].
    intros m' Hm'. by apply string_of_bytes_ext.
  - done.
  - intros this c hook h child h1 Hnode Hp Hchild Hty.
    destruct (unary_hook_accepts this c hook schema allocator rows child h1
                Hnode Hty) as (factory & Hf & Hrun).
    exists factory. split; [done|].
    rewrite (DoBind_unary_node this c hook) by done.
    rewrite bind_run. fold (entered this h).
    unfold UnaryExpression_DoBind. rewrite bind_run, Hchild.
    cbn [fst snd PROPAGATE_ON_FAILURE]. by rewrite Hrun, Hp.
  - intros haystack substitute h left h1 right h2 this Hl Hr Htl Htr.
    subst this. rewrite DoBind_RegexpReplaceExpression, bind_run.
    fold (entered (RegexpReplaceExpression haystack p substitute) h).
    rewrite BinaryExpression_DoBind_run, Hl, Hr.
    by apply replace_hook_accepts.
  - intros this c hook h Hnode.
    rewrite (DoBind_unary_node this c hook) by done.
    rewrite bind_run. fold (entered this h).
    unfold UnaryExpression_DoBind. rewrite bind_run.
    destruct (DoBind c schema allocator rows (entered this h))
      as [[child|e] h1]; cbn [fst snd PROPAGATE_ON_FAILURE]; [|done].
    by apply (unary_hook_binds this c).
  - intros haystack q substitute h this left_run. subst left_run this.
    rewrite DoBind_RegexpReplaceExpression, bind_run.
    fold (entered (RegexpReplaceExpression haystack q substitute) h).
    rewrite BinaryExpression_DoBind_run.
    destruct (DoBind haystack _ _ _ _) as [[left|e] h1]; cbn [fst snd];
      [|done].
    destruct (DoBind substitute _ _ _ h1) as [[right|e] h2]; cbn [fst snd].
    + apply replace_hook_binds.
    + apply delete_binds.
Qed.

(** ** Display *)

(** C7. The representation follows the notation of the operation, the
    representations of the operands are put in by position and the
    verbosity flag goes down to the operands: [Concat([A, B])] prints
    CONCAT(A, B); [Substring(S, P, L)] prints the template
    SUBSTRING($0, $1, $2) filled with S, P and L; [RegexpReplace(H, _, R)]
    prints the description format of OPERATOR_REGEXP_REPLACE applied to the
    representations of H and R. *)
Theorem display_follows_notation (verbose : bool) :
  (∀ A B,
     ToString (supersonic.Concat [A; B]) verbose
     = "CONCAT(" +:+ ToString A verbose +:+ ", " +:+ ToString B verbose
         +:+ ")") ∧
  (∀ args,
     ToString (supersonic.Concat args) verbose
     = "CONCAT("
         +:+ JoinStrings (map (λ e, ToString e verbose) args) ", " +:+ ")") ∧
  (∀ S P L,
     ToString (supersonic.Substring S P L) verbose
     = Substitute "SUBSTRING($0, $1, $2)"
         [ToString S verbose; ToString P verbose; ToString L verbose] ∧
     ToString (supersonic.Substring S P L) verbose
     = "SUBSTRING(" +:+ ToString S verbose +:+ ", " +:+ ToString P verbose
         +:+ ", " +:+ ToString L verbose +:+ ")") ∧
  (∀ m haystack pattern R,
     ToString (supersonic.RegexpReplace m haystack pattern R) verbose
     = BinaryExpressionTraits_FormatDescription OPERATOR_REGEXP_REPLACE
         (ToString haystack verbose) (ToString R verbose)).
Proof.
  split; [|split; [|split]].
  - intros A B. cbn [supersonic.Concat ToString ExpressionList_ToString map
                       JoinStrings].
    unfold StrCat. by rewrite !Str.append_assoc.
  - reflexivity.
  - intros S P L. split; reflexivity.
  - reflexivity.
Qed.

(** The binding of the generic forwarding node. *)
Lemma forwarding_node_bind args factory description schema allocator rows h :
  let this := ExistingBoundFactoryExpression args factory description in
  DoBind this schema allocator rows h
  = match ExpressionList_bind args schema allocator rows (entered this h) with
    | (Failure e, h1) => (Failure e, h1)
    | (Success bound, h1) => Invoke factory bound None allocator rows h1
    end.
Proof.
  intros this. subst this.
  rewrite DoBind_ExistingBoundFactoryExpression, bind_run.
  fold (entered (ExistingBoundFactoryExpression args factory description) h).
  unfold ExistingBoundFactoryExpression_DoBind. rewrite bind_run.
  by destruct (ExpressionList_bind _ _ _ _ _) as [[bound|e] h1].
Qed.

(** C8. Each public constructor without a pattern returns the generic
    forwarding node, built from its operands, the bound factory of the
    operation and a display template with positional placeholders. The
    node declares no type-check hook: it prints its template filled with the
    representations of the operands, and its bind hands the bound operands,
    whatever their types, to the bound factory. *)
Theorem constructors_forward_to_bound_factories :
  (∀ str,
     supersonic.Length str
     = ExistingBoundFactoryExpression [str] BoundLength "LENGTH($0)" ∧
     supersonic.Ltrim str
     = ExistingBoundFactoryExpression [str] BoundLtrim "LTRIM($0)" ∧
     supersonic.Rtrim str
     = ExistingBoundFactoryExpression [str] BoundRtrim "RTRIM($0)" ∧
     supersonic.ToLower str
     = ExistingBoundFactoryExpression [str] BoundToLower "TO_LOWER($0)" ∧
     supersonic.ToUpper str
     = ExistingBoundFactoryExpression [str] BoundToUpper "TO_UPPER($0)" ∧
     supersonic.Trim str
     = ExistingBoundFactoryExpression [str] BoundTrim "TRIM($0)" ∧
     supersonic.ToString str
     = ExistingBoundFactoryExpression [str] BoundToString "TO_STRING($0)") ∧
  (∀ haystack needle,
     supersonic.StringContains haystack needle
     = ExistingBoundFactoryExpression [haystack; needle]
         BoundContains "CONTAINS($0, $1)" ∧
     supersonic.StringContainsCI haystack needle
     = ExistingBoundFactoryExpression [haystack; needle]
         BoundContainsCI "CONTAINS_CI($0, $1)" ∧
     supersonic.StringOffset haystack needle
     = ExistingBoundFactoryExpression [haystack; needle]
         BoundStringOffset "STRING_OFFSET($0, $1)" ∧
     supersonic.TrailingSubstring haystack needle
     = ExistingBoundFactoryExpression [haystack; needle]
         BoundTrailingSubstring "SUBSTRING($0, $1)") ∧
  (∀ haystack needle substitute,
     supersonic.StringReplace haystack needle substitute
     = ExistingBoundFactoryExpression [haystack; needle; substitute]
         BoundStringReplace "STRING_REPLACE($0, $1, $2)" ∧
     supersonic.Substring haystack needle substitute
     = ExistingBoundFactoryExpression [haystack; needle; substitute]
         BoundSubstring "SUBSTRING($0, $1, $2)") ∧
  (∀ args factory description,
     let this := ExistingBoundFactoryExpression args factory description in
     unary_node this = None ∧
     node_pattern this = None ∧
     (∀ verbose,
        ToString this verbose
        = Substitute description (map (λ e, ToString e verbose) args)) ∧
     ∀ schema allocator rows h,
       DoBind this schema allocator rows h
       = match ExpressionList_bind args schema allocator rows (entered this h)
         with
         | (Failure e, h1) => (Failure e, h1)
         | (Success bound, h1) =>
             Invoke factory bound None allocator rows h1
         end).
Proof.
  split; [done|]. split; [done|]. split; [done|].
  intros args factory description this. split; [done|]. split; [done|].
  split; [done|].
  intros schema allocator rows h. apply forwarding_node_bind.
Qed.

(** C9. The representation of a node that carries a pattern does not
    depend on the pattern, for either verbosity flag: two nodes built on the
    same child expressions from different patterns print the same string,
    and their hooks answer a type mismatch with the same exception. *)
Theorem display_independent_of_pattern
    (m1 m2 : Memory) (pattern1 pattern2 : StringPiece) :
  (∀ verbose str substitute,
     ToString (supersonic.RegexpPartialMatch m1 str pattern1) verbose
     = ToString (supersonic.RegexpPartialMatch m2 str pattern2) verbose ∧
     ToString (supersonic.RegexpFullMatch m1 str pattern1) verbose
     = ToString (supersonic.RegexpFullMatch m2 str pattern2) verbose ∧
     ToString (supersonic.RegexpExtract m1 str pattern1) verbose
     = ToString (supersonic.RegexpExtract m2 str pattern2) verbose ∧
     ToString (supersonic.RegexpReplace m1 str pattern1 substitute) verbose
     = ToString (supersonic.RegexpReplace m2 str pattern2 substitute) verbose) ∧
  (∀ p1 p2 schema allocator rows h,
     (∀ op c child,
        GetExpressionType child ≠ STRING →
        RegexpExpression_CreateBoundUnaryExpression op c p1
          schema allocator rows child h
        = RegexpExpression_CreateBoundUnaryExpression op c p2
            schema allocator rows child h) ∧
     (∀ c child,
        GetExpressionType child ≠ STRING →
        RegexpExtractExpression_CreateBoundUnaryExpression c p1
          schema allocator rows child h
        = RegexpExtractExpression_CreateBoundUnaryExpression c p2
            schema allocator rows child h) ∧
     (∀ l r left right,
        GetExpressionType left ≠ STRING ∨ GetExpressionType right ≠ STRING →
        RegexpReplaceExpression_CreateBoundBinaryExpression l p1 r
          schema allocator rows left right h
        = RegexpReplaceExpression_CreateBoundBinaryExpression l p2 r
            schema allocator rows left right h)).
Proof.
  split; [done|].
  intros p1 p2 schema allocator rows h. split; [|split].
  - intros op c child Hty.
    rewrite (unary_hook_rejects (RegexpExpression op c p1) c) by done.
    by rewrite (unary_hook_rejects (RegexpExpression op c p2) c) by done.
  - intros c child Hty.
    rewrite (unary_hook_rejects (RegexpExtractExpression c p1) c) by done.
    by rewrite (unary_hook_rejects (RegexpExtractExpression c p2) c) by done.
  - intros l r left right Hty.
    destruct (decide (GetExpressionType left = STRING)) as [Hl|Hl].
    + destruct Hty as [Hty|Hty]; [done|].
      by rewrite !replace_hook_rejects_last by done.
    + by rewrite !replace_hook_rejects_first by done.
Qed.

(** C10. [TrailingSubstring] builds its node with the template
    SUBSTRING($0, $1): it prints as a SUBSTRING of two operands, under the
    keyword of the three-operand [Substring], whose display differs from it
    by the third operand only. *)
Theorem trailing_substring_displays_as_substring (str pos : Expression) :
  supersonic.TrailingSubstring str pos
  = ExistingBoundFactoryExpression [str; pos]
      BoundTrailingSubstring "SUBSTRING($0, $1)" ∧
  ∀ verbose,
    ToString (supersonic.TrailingSubstring str pos) verbose
    = "SUBSTRING(" +:+ ToString str verbose +:+ ", " +:+ ToString pos verbose
        +:+ ")" ∧
    ∀ length,
      ToString (supersonic.Substring str pos length) verbose
      = "SUBSTRING(" +:+ ToString str verbose +:+ ", "
          +:+ ToString pos verbose
          +:+ ", " +:+ ToString length verbose +:+ ")".
Proof. split; [done|]. intros verbose. split; [reflexivity|]. reflexivity. Qed.

End Specification.

(** * Further properties of the binder *)

Section Outcomes.
Context `{Collaborators}.
Local Open Scope bind_scope.

Implicit Types (schema : TupleSchema) (allocator : BufferAllocator).
Implicit Types (rows : rowcount_t) (h : Heap).
Implicit Types (child : BoundExpression).

Lemma Invoke_result factory bound pattern allocator rows h :
  (Invoke factory bound pattern allocator rows h).1
  = match factory_verdict
            (Build_FactoryCall factory bound pattern allocator rows) with
    | Failure e => Failure e
    | Success ty => Success (BoundNode (fresh (live h)) ty bound)
    end.
Proof.
  unfold Invoke. rewrite bind_run.
  destruct (factory_verdict _) as [ty|e]; by rewrite bind_run.
Qed.

(** X1. [REGEXP_EXTRACT] prints its child as a C string: the representation
    of the child up to its first NUL byte, between the keyword and the
    closing parenthesis. Its hook therefore puts the whole verbose form of
    the node in the message of a type mismatch, which reads: Invalid argument
    type (T) to REGEXP_EXTRACT(child), STRING expected. *)
Theorem regexp_extract_mismatch_message c p schema allocator rows child h :
  GetExpressionType child ≠ STRING →
  (∀ verbose,
     ToString (RegexpExtractExpression c p) verbose
     = "REGEXP_EXTRACT(" +:+ c_str (ToString c verbose) +:+ ")") ∧
  ∃ e h',
    RegexpExtractExpression_CreateBoundUnaryExpression c p
      schema allocator rows child h = (Failure e, h') ∧
    message e
    = "Invalid argument type (" +:+ name (GetTypeInfo (GetExpressionType child))
        +:+ ") to REGEXP_EXTRACT(" +:+ c_str (ToString c true)
        +:+ "), STRING expected" ∧
    Contains (ToString (RegexpExtractExpression c p) true) (message e).
Proof.
  intros Hty. split; [reflexivity|].
  eexists _, _. split.
  - by apply (unary_hook_rejects (RegexpExtractExpression c p) c).
  - cbn [message unary_mismatch].
    rewrite c_str_type_name, RegexpExtractExpression_form_c_str.
    split.
    + change (ToString (RegexpExtractExpression c p) true)
        with ("REGEXP_EXTRACT(" +:+ c_str (ToString c true) +:+ ")").
      by rewrite !Str.append_assoc.
    + exists ("Invalid argument type ("
              +:+ name (GetTypeInfo (GetExpressionType child)) +:+ ") to "),
        ", STRING expected".
      by rewrite !Str.append_assoc.
Qed.

(** X2. The outcome of binding a unary node that carries a pattern has
    exactly these sources. A success comes from a child that bound to a
    STRING and a bound factory that accepted the call with the node's
    pattern; the result owns the bound child and has the type the factory
    reported. A failure is the failure of the child, as it is and with the
    state the child left, or the type mismatch of the hook, or the failure of
    the bound factory. *)
Theorem unary_bind_outcome this c hook schema allocator rows h :
  unary_node this = Some (c, hook) →
  let child_run := DoBind c schema allocator rows (entered this h) in
  let run := DoBind this schema allocator rows h in
  match run.1 with
  | Success b =>
      ∃ child factory,
        child_run.1 = Success child ∧
        GetExpressionType child = STRING ∧
        node_factory this = Some factory ∧
        factory_verdict
          (Build_FactoryCall factory [child] (node_pattern this) allocator rows)
        = Success (bound_type b) ∧
        bound_children b = [child]
  | Failure e =>
      (child_run.1 = Failure e ∧ run.2 = child_run.2) ∨
      (∃ child,
         child_run.1 = Success child ∧
         GetExpressionType child ≠ STRING ∧
         e = unary_mismatch (GetExpressionType child) (ToString this true)) ∨
      (∃ child factory,
         child_run.1 = Success child ∧
         GetExpressionType child = STRING ∧
         node_factory this = Some factory ∧
         factory_verdict
           (Build_FactoryCall factory [child] (node_pattern this) allocator rows)
         = Failure e)
  end.
Proof.
  intros Hnode child_run run. subst run child_run.
  rewrite (DoBind_unary_node this c hook) by done.
  rewrite bind_run. fold (entered this h).
  unfold UnaryExpression_DoBind. rewrite bind_run.
  destruct (DoBind c schema allocator rows (entered this h))
    as [[child|e] h1]; cbn [fst snd PROPAGATE_ON_FAILURE]; [|by left].
  destruct (decide (GetExpressionType child = STRING)) as [Hty|Hty].
  - destruct (unary_hook_accepts this c hook schema allocator rows child h1
                Hnode Hty) as (factory & Hf & ->).
    rewrite Invoke_result.
    destruct (factory_verdict _) as [ty|e] eqn:Hverdict.
    + exists child, factory. by rewrite Hverdict.
    + right. right. by exists child, factory.
  - rewrite (unary_hook_rejects this c hook) by done. cbn [fst].
    right. left. by exists child.
Qed.

(** X3. The outcome of binding [RegexpReplaceExpression] has exactly these
    sources. A success comes from two children that bound to STRING, the
    haystack first, and a bound factory that accepted them with the pattern;
    the result owns both. A failure is the failure of the haystack, or of the
    substitute, or the mismatch of the first argument, or (the haystack being
    a STRING) the mismatch of the last argument, or the failure of the bound
    factory. *)
Theorem regexp_replace_bind_outcome l p r schema allocator rows h :
  let this := RegexpReplaceExpression l p r in
  let left_run := DoBind l schema allocator rows (entered this h) in
  let right_run := DoBind r schema allocator rows left_run.2 in
  let request left right :=
    Build_FactoryCall BoundRegexpReplace [left; right] (Some p)
      allocator rows in
  match (DoBind this schema allocator rows h).1 with
  | Success b =>
      ∃ left right,
        left_run.1 = Success left ∧ right_run.1 = Success right ∧
        GetExpressionType left = STRING ∧ GetExpressionType right = STRING ∧
        factory_verdict (request left right) = Success (bound_type b) ∧
        bound_children b = [left; right]
  | Failure e =>
      left_run.1 = Failure e ∨
      ∃ left,
        left_run.1 = Success left ∧
        (right_run.1 = Failure e ∨
         ∃ right,
           right_run.1 = Success right ∧
           ((GetExpressionType left ≠ STRING ∧
             e = binary_mismatch (GetExpressionType left) "first"
                   (ToString this true)) ∨
            (GetExpressionType left = STRING ∧
             GetExpressionType right ≠ STRING ∧
             e = binary_mismatch (GetExpressionType right) "last"
                   (ToString this true)) ∨
            (GetExpressionType left = STRING ∧
             GetExpressionType right = STRING ∧
             factory_verdict (request left right) = Failure e)))
  end.
Proof.
  intros this left_run right_run request. subst right_run left_run this.
  rewrite DoBind_RegexpReplaceExpression, bind_run.
  fold (entered (RegexpReplaceExpression l p r) h).
  rewrite BinaryExpression_DoBind_run.
  destruct (DoBind l _ _ _ _) as [[bl|e] h1]; cbn [fst snd]; [|by left].
  destruct (DoBind r _ _ _ h1) as [[br|e] h2]; cbn [fst snd].
  2: { right. exists bl. split; [done|]. by left. }
  destruct (decide (GetExpressionType bl = STRING)) as [Hl|Hl].
  - destruct (decide (GetExpressionType br = STRING)) as [Hr|Hr].
    + rewrite replace_hook_accepts by done. rewrite Invoke_result.
      fold (request bl br).
      destruct (factory_verdict (request bl br)) as [ty|e] eqn:Hverdict.
      * by exists bl, br.
      * right. exists bl. split; [done|]. right. exists br.
        split; [done|]. by right; right.
    + rewrite replace_hook_rejects_last by done. cbn [fst].
      right. exists bl. split; [done|]. right. exists br.
      split; [done|]. right. by left.
  - rewrite replace_hook_rejects_first by done. cbn [fst].
    right. exists bl. split; [done|]. right. exists br.
    split; [done|]. by left.
Qed.

(** X4. A bind that succeeds, on any tree of the nodes of this file, returns
    a tree of bound objects that are pairwise distinct, were not live before
    and are live afterwards; nothing else has become live or was freed, and
    nothing was released twice. *)
Theorem successful_bind_returns_fresh_tree e schema allocator rows h b h' :
  DoBind e schema allocator rows h = (Success b, h') →
  NoDup (footprint b) ∧
  (∀ a, a ∈ footprint b → a ∉ live h) ∧
  live h' = list_to_set (footprint b) ∪ live h ∧
  faults h' = faults h.
Proof.
  intros Hrun.
  pose proof (DoBind_frames e schema allocator rows h) as [Hf Hres].
  rewrite Hrun in Hf, Hres. cbn [fst snd] in Hf, Hres.
  destruct Hres as (Hnd & Hnew & Hlive). done.
Qed.

End Outcomes.

(** ** What the bound factories are called with *)

Section Calls.
Context `{Collaborators}.
Local Open Scope bind_scope.

Implicit Types (schema : TupleSchema) (allocator : BufferAllocator).
Implicit Types (rows : rowcount_t) (h : Heap) (P : Event → Prop).

Lemma extends_log_refl P h : extends_log P h h.
Proof. exists []. by rewrite app_nil_r. Qed.

Lemma extends_log_trans P h1 h2 h3 :
  extends_log P h1 h2 → extends_log P h2 h3 → extends_log P h1 h3.
Proof.
  intros (n1 & E1 & F1) (n2 & E2 & F2). exists (n1 ++ n2).
  rewrite E2, E1, <- app_assoc. split; [done|]. by apply Forall_app.
Qed.

Lemma extends_log_event P ev h h' :
  P ev → log h' = log h ++ [ev] → extends_log P h h'.
Proof. intros HP E. exists [ev]. split; [done|]. by apply Forall_singleton. Qed.

Lemma extends_log_delete_list P bs h :
  (∀ b, P (EvDelete b)) → extends_log P h (delete_list bs h).2.
Proof.
  intros HP. revert h. induction bs as [|b bs IH]; intros h.
  - apply extends_log_refl.
  - rewrite delete_list_cons.
    eapply extends_log_trans; [|apply IH].
    by apply (extends_log_event P (EvDelete b)).
Qed.

Lemma extends_log_Invoke P factory bound pattern allocator rows h :
  (∀ b, P (EvDelete b)) → (∀ b, P (EvNew b)) →
  P (EvCall (Build_FactoryCall factory bound pattern allocator rows)) →
  extends_log P h (Invoke factory bound pattern allocator rows h).2.
Proof.
  intros Hdel Hnew Hcall. unfold Invoke. rewrite bind_run.
  set (ev := EvCall (Build_FactoryCall factory bound pattern allocator rows))
    in *.
  apply (extends_log_trans P h (trace ev h).2).
  { by apply (extends_log_event P ev). }
  cbn [fst snd].
  destruct (factory_verdict _) as [ty|e]; rewrite bind_run.
  - by apply (extends_log_event P
                (EvNew (new_bound ty bound (trace ev h).2).1)).
  - unfold ret. cbn [fst snd]. by apply extends_log_delete_list.
Qed.

Lemma checked_unary_hook this c hook schema allocator rows child h :
  unary_node this = Some (c, hook) →
  extends_log checked_event h (hook schema allocator rows child h).2.
Proof.
  intros Hnode.
  destruct (decide (GetExpressionType child = STRING)) as [Hty|Hty].
  - destruct (unary_hook_accepts this c hook schema allocator rows child h
                Hnode Hty) as (factory & Hf & ->).
    apply extends_log_Invoke; [done..|].
    destruct this; try discriminate; injection Hf as <-; cbn;
      (split; [by apply Forall_singleton | done]).
  - rewrite (unary_hook_rejects this c hook) by done.
    by apply (extends_log_event checked_event (EvDelete child)).
Qed.

Lemma checked_replace_hook l p r schema allocator rows bl br h :
  extends_log checked_event h
    (RegexpReplaceExpression_CreateBoundBinaryExpression l p r
       schema allocator rows bl br h).2.
Proof.
  assert (Hdel : extends_log checked_event h (delete bl (delete br h).2).2).
  { apply (extends_log_trans checked_event h (delete br h).2).
    - by apply (extends_log_event checked_event (EvDelete br)).
    - by apply (extends_log_event checked_event (EvDelete bl)). }
  destruct (decide (GetExpressionType bl = STRING)) as [Hl|Hl].
  - destruct (decide (GetExpressionType br = STRING)) as [Hr|Hr].
    + rewrite replace_hook_accepts by done.
      apply extends_log_Invoke; [done..|]. cbn.
      split; [|done]. by repeat constructor.
    + by rewrite replace_hook_rejects_last by done.
  - by rewrite replace_hook_rejects_first by done.
Qed.

Lemma extends_log_list P bind_element (l : ExpressionList) :
  (∀ b, P (EvDelete b)) →
  Forall (λ e, ∀ h, extends_log P h (bind_element e h).2) l →
  ∀ acc h,
    extends_log P h (ExpressionList_DoBind bind_element l acc h).2.
Proof.
  intros Hdel. induction 1 as [|e l He _ IH]; intros acc h.
  - apply extends_log_refl.
  - cbn [ExpressionList_DoBind]. rewrite bind_run.
    specialize (He h).
    destruct (bind_element e h) as [[b|ex] h1]; cbn [fst snd] in *.
    + eapply extends_log_trans; [exact He | apply IH].
    + rewrite bind_run. unfold ret. cbn [fst snd].
      eapply extends_log_trans; [exact He|].
      by apply extends_log_delete_list.
Qed.

Lemma checked_variadic bind_element args factory allocator rows h :
  Forall (λ e, ∀ h, extends_log checked_event h (bind_element e h).2) args →
  extends_log checked_event h
    ((bound <- ExpressionList_DoBind bind_element args [] ;;
      PROPAGATE_ON_FAILURE bound (λ released,
        Invoke factory released None allocator rows)) h).2.
Proof.
  intros Hargs. rewrite bind_run.
  pose proof (extends_log_list checked_event bind_element args
                (λ _, I) Hargs [] h) as Hlist.
  destruct (ExpressionList_DoBind bind_element args [] h) as [[bs|e] h1];
    cbn [fst snd PROPAGATE_ON_FAILURE] in *; [|done].
  eapply extends_log_trans; [exact Hlist|].
  by apply extends_log_Invoke.
Qed.

Lemma checked_entered e h : extends_log checked_event h (entered e h).
Proof. by apply (extends_log_event checked_event (EvBind e)). Qed.

(** X5. Whatever tree is bound, every call of a bound factory that carries a
    pattern goes to one of the regexp factories with operands of type STRING
    only: one operand for a match or an extraction, two for a replacement.
    No bound expression of another type ever reaches a regexp factory. *)
Theorem pattern_calls_take_strings e schema allocator rows h :
  ∃ new,
    log (DoBind e schema allocator rows h).2 = log h ++ new ∧
    Forall checked_event new.
Proof.
  change (extends_log checked_event h (DoBind e schema allocator rows h).2).
  revert schema allocator rows h.
  induction e as [describe resolve|args IH|op c p IH|c p IH|l p r IHl IHr
                 |args f d IH] using Expression_nested_ind;
    intros schema allocator rows h.
  - rewrite DoBind_ExternalExpression, bind_run.
    eapply extends_log_trans; [apply checked_entered|]. cbn [fst snd].
    destruct (resolve schema allocator rows); [|apply extends_log_refl].
    rewrite bind_run. by eapply (extends_log_event checked_event (EvNew _)).
  - rewrite DoBind_ConcatExpression, bind_run.
    eapply extends_log_trans; [apply checked_entered|].
    apply checked_variadic.
    eapply Forall_impl; [exact IH|]. intros e He h'. apply He.
  - rewrite DoBind_RegexpExpression, bind_run.
    eapply extends_log_trans; [apply checked_entered|].
    unfold UnaryExpression_DoBind. rewrite bind_run.
    specialize (IH schema allocator rows (entered (RegexpExpression op c p) h)).
    fold (entered (RegexpExpression op c p) h).
    destruct (DoBind c _ _ _ _) as [[child|e] h1];
      cbn [fst snd PROPAGATE_ON_FAILURE] in *; [|done].
    eapply extends_log_trans; [exact IH|].
    by apply (checked_unary_hook (RegexpExpression op c p) c).
  - rewrite DoBind_RegexpExtractExpression, bind_run.
    eapply extends_log_trans; [apply checked_entered|].
    unfold UnaryExpression_DoBind. rewrite bind_run.
    specialize (IH schema allocator rows
                  (entered (RegexpExtractExpression c p) h)).
    fold (entered (RegexpExtractExpression c p) h).
    destruct (DoBind c _ _ _ _) as [[child|e] h1];
      cbn [fst snd PROPAGATE_ON_FAILURE] in *; [|done].
    eapply extends_log_trans; [exact IH|].
    by apply (checked_unary_hook (RegexpExtractExpression c p) c).
  - rewrite DoBind_RegexpReplaceExpression, bind_run.
    eapply extends_log_trans; [apply checked_entered|].
    fold (entered (RegexpReplaceExpression l p r) h).
    rewrite BinaryExpression_DoBind_run.
    specialize (IHl schema allocator rows
                  (entered (RegexpReplaceExpression l p r) h)).
    destruct (DoBind l _ _ _ _) as [[bl|e] h1]; cbn [fst snd] in *; [|done].
    eapply extends_log_trans; [exact IHl|].
    specialize (IHr schema allocator rows h1).
    destruct (DoBind r _ _ _ h1) as [[br|e] h2]; cbn [fst snd] in *.
    + eapply extends_log_trans; [exact IHr|]. apply checked_replace_hook.
    + eapply extends_log_trans; [exact IHr|].
      by apply (extends_log_event checked_event (EvDelete bl)).
  - rewrite DoBind_ExistingBoundFactoryExpression, bind_run.
    eapply extends_log_trans; [apply checked_entered|].
    apply checked_variadic.
    eapply Forall_impl; [exact IH|]. intros e He h'. apply He.
Qed.

End Calls.

(** ** The order in which a tree is bound *)

Section Traversal.
Context `{Collaborators}.
Local Open Scope bind_scope.

Implicit Types (schema : TupleSchema) (allocator : BufferAllocator).
Implicit Types (rows : rowcount_t) (h : Heap).

Section Follows.
Context {X : Type} (observe : list Event → list X).

Lemma follows_same {A B} h (res : FailureOrOwned A * Heap)
    (res' : FailureOrOwned B * Heap) expected :
  observe (log res'.2) = observe (log res.2) →
  (is_failure res'.1 = false → is_failure res.1 = false) →
  follows observe h res expected → follows observe h res' expected.
Proof.
  intros Hlog Hok (seen & Hv & Hpre & Hall).
  exists seen. rewrite Hlog. split; [done|]. split; [done|].
  intros Hs. by apply Hall, Hok.
Qed.

Lemma follows_from {A} h h0 (res : FailureOrOwned A * Heap) expected :
  observe (log h) = observe (log h0) →
  follows observe h res expected → follows observe h0 res expected.
Proof. intros Hlog (seen & Hv & Hrest). exists seen. by rewrite <- Hlog. Qed.

Lemma follows_then {A B} h (first : FailureOrOwned A * Heap)
    (second : FailureOrOwned B * Heap) expected expected' :
  follows observe h first expected → is_failure first.1 = false →
  follows observe first.2 second expected' →
  follows observe h second (expected ++ expected').
Proof.
  intros (v1 & Hv1 & _ & Hall1) Hok (v2 & Hv2 & Hpre2 & Hall2).
  exists (expected ++ v2). rewrite Hv2, Hv1, (Hall1 Hok), <- app_assoc.
  split; [done|]. split; [by apply prefix_app|].
  intros Hs. by rewrite Hall2.
Qed.

Lemma follows_stopped {A B} h (first : FailureOrOwned A * Heap)
    (res : FailureOrOwned B * Heap) expected expected' :
  follows observe h first expected → is_failure res.1 = true →
  observe (log res.2) = observe (log first.2) →
  follows observe h res (expected ++ expected').
Proof.
  intros (v1 & Hv1 & Hpre & _) Hfail Hlog. exists v1.
  rewrite Hlog. split; [done|]. split; [by apply prefix_app_r|].
  intros Hs. congruence.
Qed.

Lemma follows_nothing {A} h (res : FailureOrOwned A * Heap) :
  observe (log res.2) = observe (log h) → follows observe h res [].
Proof. intros Hlog. exists []. by rewrite app_nil_r. Qed.

Lemma follows_list (items : Expression → list X) bind_element
    (l : ExpressionList) :
  (∀ bs h0, observe (log (delete_list bs h0).2) = observe (log h0)) →
  Forall (λ e, ∀ h, follows observe h (bind_element e h) (items e)) l →
  ∀ acc h,
    follows observe h (ExpressionList_DoBind bind_element l acc h)
      (flat_map items l).
Proof.
  intros Hdel. induction 1 as [|e l He _ IH]; intros acc h.
  - by apply follows_nothing.
  - cbn [ExpressionList_DoBind flat_map]. rewrite bind_run.
    specialize (He h).
    destruct (bind_element e h) as [[b|ex] h1] eqn:Hrun; cbn [fst snd].
    + apply (follows_then h (Success b, h1)); [done..|]. apply IH.
    + rewrite bind_run. unfold ret. cbn [fst snd].
      apply (follows_stopped h (@Failure BoundExpression ex, h1)
               (Failure ex, (delete_list acc h1).2)); [done..|].
      cbn [snd]. apply Hdel.
Qed.

End Follows.

Lemma visits_entered {A} this h (res : FailureOrOwned A * Heap) expected :
  follows bind_events (entered this h) res expected →
  follows bind_events h res (this :: expected).
Proof.
  intros (seen & Hv & Hpre & Hall). exists (this :: seen).
  split; [|split].
  - rewrite Hv. cbn. rewrite bind_events_app. cbn. by rewrite <- app_assoc.
  - by apply prefix_cons.
  - intros Hs. by rewrite Hall.
Qed.

Lemma visits_variadic bind_element args factory allocator rows h :
  Forall (λ e, ∀ h, follows bind_events h (bind_element e h) (preorder e))
    args →
  follows bind_events h
    ((bound <- ExpressionList_DoBind bind_element args [] ;;
      PROPAGATE_ON_FAILURE bound (λ released,
        Invoke factory released None allocator rows)) h)
    (flat_map preorder args).
Proof.
  intros Hargs. rewrite bind_run.
  pose proof (follows_list bind_events preorder bind_element args
                delete_list_binds Hargs [] h) as Hlist.
  destruct (ExpressionList_DoBind bind_element args [] h) as [[bs|e] h1];
    cbn [fst snd PROPAGATE_ON_FAILURE] in *; [|done].
  destruct Hlist as (seen & Hv & Hpre & Hall).
  exists seen. rewrite Invoke_binds. split; [done|]. split; [done|].
  intros _. by apply Hall.
Qed.

Lemma visits_unary bind_child
    (hook : BoundExpression → M (FailureOrOwned BoundExpression)) h c :
  follows bind_events h (bind_child h) (preorder c) →
  (∀ child h1, bind_events (log (hook child h1).2) = bind_events (log h1)) →
  follows bind_events h (UnaryExpression_DoBind bind_child hook h) (preorder c).
Proof.
  intros Hchild Hhook. unfold UnaryExpression_DoBind. rewrite bind_run.
  destruct (bind_child h) as [[child|e] h1];
    cbn [fst snd PROPAGATE_ON_FAILURE] in *; [|done].
  destruct Hchild as (seen & Hv & Hpre & Hall).
  exists seen. rewrite Hhook. split; [done|]. split; [done|].
  intros _. by apply Hall.
Qed.

(** X7. A bind walks the tree depth first, parents before operands and
    operands in argument order, and calls [DoBind] on a node at most once:
    the expressions bound by a run are, in order, the first nodes of that
    walk, and all of them, each once, when the bind succeeds. *)
Theorem bind_visits_nodes_in_order e schema allocator rows h :
  let run := DoBind e schema allocator rows h in
  ∃ visited,
    bind_events (log run.2) = bind_events (log h) ++ visited ∧
    visited `prefix_of` preorder e ∧
    (is_failure run.1 = false → visited = preorder e).
Proof.
  change (follows bind_events h (DoBind e schema allocator rows h) (preorder e)).
  revert schema allocator rows h.
  induction e as [describe resolve|args IH|op c p IH|c p IH|l p r IHl IHr
                 |args f d IH] using Expression_nested_ind;
    intros schema allocator rows h.
  - rewrite DoBind_ExternalExpression, bind_run.
    apply visits_entered. cbn [fst snd]. apply follows_nothing.
    destruct (resolve schema allocator rows); [|done].
    rewrite bind_run. cbn. rewrite bind_events_app. cbn. by rewrite app_nil_r.
  - rewrite DoBind_ConcatExpression, bind_run.
    apply visits_entered. apply visits_variadic.
    eapply Forall_impl; [exact IH|]. intros e He h'. apply He.
  - rewrite DoBind_RegexpExpression, bind_run.
    apply visits_entered. apply visits_unary; [apply IH|].
    intros child h1.
    by apply (unary_hook_binds (RegexpExpression op c p) c).
  - rewrite DoBind_RegexpExtractExpression, bind_run.
    apply visits_entered. apply visits_unary; [apply IH|].
    intros child h1.
    by apply (unary_hook_binds (RegexpExtractExpression c p) c).
  - rewrite DoBind_RegexpReplaceExpression, bind_run.
    apply visits_entered. cbn [fst snd].
    fold (entered (RegexpReplaceExpression l p r) h).
    rewrite BinaryExpression_DoBind_run.
    specialize (IHl schema allocator rows
                  (entered (RegexpReplaceExpression l p r) h)).
    destruct (DoBind l _ _ _ _) as [[bl|e] h1] eqn:Hl.
    + specialize (IHr schema allocator rows h1).
      destruct (DoBind r _ _ _ h1) as [[br|e] h2] eqn:Hr.
      * apply (follows_then _ _ (Success bl, h1)); [done..|].
        cbn [snd].
        apply (follows_same _ h1 (Success br, h2)); [|done..].
        apply replace_hook_binds.
      * apply (follows_then _ _ (Success bl, h1)); [done..|].
        cbn [snd].
        apply (follows_same _ h1 (@Failure BoundExpression e, h2));
          [|done..].
        apply delete_binds.
    + apply (follows_stopped _ _ (@Failure BoundExpression e, h1)); done.
  - rewrite DoBind_ExistingBoundFactoryExpression, bind_run.
    apply visits_entered. apply visits_variadic.
    eapply Forall_impl; [exact IH|]. intros e He h'. apply He.
Qed.

Lemma call_events_app l l' :
  call_events (l ++ l') = call_events l ++ call_events l'.
Proof.
  induction l as [|[e|b|b|c] l IH]; simpl; [done..|by rewrite IH].
Qed.

Lemma call_events_silent ev h h' :
  log h' = log h ++ [ev] → call_events [ev] = [] →
  call_events (log h') = call_events (log h).
Proof. intros -> Hev. by rewrite call_events_app, Hev, app_nil_r. Qed.

Lemma delete_calls b h : call_events (log (delete b h).2) = call_events (log h).
Proof. by apply (call_events_silent (EvDelete b)). Qed.

Lemma delete_list_calls bs h :
  call_events (log (delete_list bs h).2) = call_events (log h).
Proof.
  revert h. induction bs as [|b bs IH]; intros h; [done|].
  by rewrite delete_list_cons, IH, delete_calls.
Qed.

Lemma entered_calls e h : call_events (log (entered e h)) = call_events (log h).
Proof. by apply (call_events_silent (EvBind e)). Qed.

Lemma Invoke_calls factory bound pattern allocator rows h :
  call_events (log (Invoke factory bound pattern allocator rows h).2)
  = call_events (log h) ++ [(factory, pattern)].
Proof.
  unfold Invoke. rewrite bind_run. cbn [fst snd].
  set (ev := EvCall (Build_FactoryCall factory bound pattern allocator rows)).
  assert (Hcall : call_events (log (trace ev h).2)
                  = call_events (log h) ++ [(factory, pattern)]).
  { cbn. by rewrite call_events_app. }
  destruct (factory_verdict _) as [ty|e]; rewrite bind_run.
  - rewrite <- Hcall.
    by apply (call_events_silent
                (EvNew (new_bound ty bound (trace ev h).2).1)).
  - unfold ret. cbn [fst snd]. by rewrite delete_list_calls.
Qed.

Lemma calls_Invoke factory bound pattern allocator rows h :
  follows call_events h (Invoke factory bound pattern allocator rows h)
    [(factory, pattern)].
Proof. exists [(factory, pattern)]. by rewrite Invoke_calls. Qed.

Lemma calls_rejected {A} h (res : FailureOrOwned A * Heap) expected :
  is_failure res.1 = true →
  call_events (log res.2) = call_events (log h) →
  follows call_events h res expected.
Proof.
  intros Hfail Hlog. exists []. rewrite app_nil_r.
  split; [done|]. split; [apply prefix_nil|]. congruence.
Qed.

Lemma calls_unary_hook this c hook schema allocator rows child h :
  unary_node this = Some (c, hook) →
  follows call_events h (hook schema allocator rows child h) (node_call this).
Proof.
  intros Hnode.
  destruct (decide (GetExpressionType child = STRING)) as [Hty|Hty].
  - destruct (unary_hook_accepts this c hook schema allocator rows child h
                Hnode Hty) as (factory & Hf & ->).
    unfold node_call. rewrite Hf. apply calls_Invoke.
  - rewrite (unary_hook_rejects this c hook) by done.
    apply calls_rejected; [done|]. apply delete_calls.
Qed.

Lemma calls_replace_hook l p r schema allocator rows bl br h :
  follows call_events h
    (RegexpReplaceExpression_CreateBoundBinaryExpression l p r
       schema allocator rows bl br h)
    (node_call (RegexpReplaceExpression l p r)).
Proof.
  destruct (decide (GetExpressionType bl = STRING)) as [Hl|Hl].
  - destruct (decide (GetExpressionType br = STRING)) as [Hr|Hr].
    + rewrite replace_hook_accepts by done. apply calls_Invoke.
    + rewrite replace_hook_rejects_last by done.
      apply calls_rejected; [done|]. cbn [snd]. by rewrite !delete_calls.
  - rewrite replace_hook_rejects_first by done.
    apply calls_rejected; [done|]. cbn [snd]. by rewrite !delete_calls.
Qed.

Lemma calls_unary this c hook schema allocator rows h :
  unary_node this = Some (c, hook) →
  (∀ h, follows call_events h (DoBind c schema allocator rows h)
          (postorder_calls c)) →
  follows call_events h
    (UnaryExpression_DoBind (DoBind c schema allocator rows)
       (hook schema allocator rows) h)
    (postorder_calls c ++ node_call this).
Proof.
  intros Hnode Hchild. unfold UnaryExpression_DoBind. rewrite bind_run.
  specialize (Hchild h).
  destruct (DoBind c schema allocator rows h) as [[child|e] h1] eqn:Hrun;
    cbn [fst snd PROPAGATE_ON_FAILURE].
  - apply (follows_then _ h (Success child, h1)); [done..|].
    by apply (calls_unary_hook this c).
  - by apply (follows_stopped _ h (@Failure BoundExpression e, h1)).
Qed.

Lemma calls_variadic bind_element args factory allocator rows h :
  Forall (λ e, ∀ h, follows call_events h (bind_element e h)
                      (postorder_calls e)) args →
  follows call_events h
    ((bound <- ExpressionList_DoBind bind_element args [] ;;
      PROPAGATE_ON_FAILURE bound (λ released,
        Invoke factory released None allocator rows)) h)
    (flat_map postorder_calls args ++ [(factory, None)]).
Proof.
  intros Hargs. rewrite bind_run.
  pose proof (follows_list call_events postorder_calls bind_element args
                delete_list_calls Hargs [] h) as Hlist.
  destruct (ExpressionList_DoBind bind_element args [] h) as [[bs|e] h1]
    eqn:Hrun; cbn [fst snd PROPAGATE_ON_FAILURE].
  - apply (follows_then _ h (Success bs, h1)); [done..|].
    apply calls_Invoke.
  - by apply (follows_stopped _ h (@Failure BoundExpressionList e, h1)).
Qed.

(** X11. The bound factories are called bottom up and at most once per node:
    the calls a run makes, each with the pattern it passes, are in order the
    first calls of the walk that puts the calls of the operands, in argument
    order, before the call of the node, and all of them when the bind
    succeeds. A successful bind has called the factory of every node of this
    file exactly once, with the pattern of that node. *)
Theorem factories_called_bottom_up e schema allocator rows h :
  let run := DoBind e schema allocator rows h in
  ∃ made,
    call_events (log run.2) = call_events (log h) ++ made ∧
    made `prefix_of` postorder_calls e ∧
    (is_failure run.1 = false → made = postorder_calls e).
Proof.
  change (follows call_events h (DoBind e schema allocator rows h)
            (postorder_calls e)).
  revert schema allocator rows h.
  induction e as [describe resolve|args IH|op c p IH|c p IH|l p r IHl IHr
                 |args f d IH] using Expression_nested_ind;
    intros schema allocator rows h.
  - rewrite DoBind_ExternalExpression, bind_run.
    apply (follows_from _ (entered (ExternalExpression describe resolve) h));
      [apply entered_calls|].
    apply follows_nothing. cbn [fst snd].
    destruct (resolve schema allocator rows); [|done].
    rewrite bind_run. by eapply call_events_silent; [reflexivity|].
  - rewrite DoBind_ConcatExpression, bind_run.
    apply (follows_from _ (entered (ConcatExpression args) h));
      [apply entered_calls|].
    apply calls_variadic.
    eapply Forall_impl; [exact IH|]. intros e He h'. apply He.
  - rewrite DoBind_RegexpExpression, bind_run.
    apply (follows_from _ (entered (RegexpExpression op c p) h));
      [apply entered_calls|].
    apply (calls_unary (RegexpExpression op c p)); [done|]. intros h'. apply IH.
  - rewrite DoBind_RegexpExtractExpression, bind_run.
    apply (follows_from _ (entered (RegexpExtractExpression c p) h));
      [apply entered_calls|].
    apply (calls_unary (RegexpExtractExpression c p)); [done|].
    intros h'. apply IH.
  - rewrite DoBind_RegexpReplaceExpression, bind_run.
    apply (follows_from _ (entered (RegexpReplaceExpression l p r) h));
      [apply entered_calls|].
    cbn [fst snd]. fold (entered (RegexpReplaceExpression l p r) h).
    rewrite BinaryExpression_DoBind_run.
    change (postorder_calls (RegexpReplaceExpression l p r))
      with ((postorder_calls l ++ postorder_calls r)
            ++ node_call (RegexpReplaceExpression l p r)).
    rewrite <- app_assoc.
    specialize (IHl schema allocator rows
                  (entered (RegexpReplaceExpression l p r) h)).
    destruct (DoBind l _ _ _ _) as [[bl|e] h1] eqn:Hl.
    + specialize (IHr schema allocator rows h1).
      apply (follows_then _ _ (Success bl, h1)); [done..|]. cbn [snd].
      destruct (DoBind r _ _ _ h1) as [[br|e] h2] eqn:Hr.
      * apply (follows_then _ _ (Success br, h2)); [done..|].
        apply calls_replace_hook.
      * apply (follows_stopped _ _ (@Failure BoundExpression e, h2));
          [done..|].
        apply delete_calls.
    + by apply (follows_stopped _ _ (@Failure BoundExpression e, h1)).
  - rewrite DoBind_ExistingBoundFactoryExpression, bind_run.
    apply (follows_from _ (entered (ExistingBoundFactoryExpression args f d) h));
      [apply entered_calls|].
    apply calls_variadic.
    eapply Forall_impl; [exact IH|]. intros e He h'. apply He.
Qed.

End Traversal.

(** ** Nodes with a list of operands *)

Section Variadic.
Context `{Collaborators}.
Local Open Scope bind_scope.

Implicit Types (schema : TupleSchema) (allocator : BufferAllocator).
Implicit Types (rows : rowcount_t) (h : Heap).

Lemma ExpressionList_DoBind_length bind_element (l : ExpressionList) :
  ∀ acc h bound h1,
    ExpressionList_DoBind bind_element l acc h = (Success bound, h1) →
    List.length bound = List.length acc + List.length l.
Proof.
  induction l as [|e l IH]; intros acc h bound h1.
  - intros [= <- _]. cbn. lia.
  - cbn [ExpressionList_DoBind]. rewrite bind_run.
    destruct (bind_element e h) as [[b|ex] h2]; cbn [fst snd].
    + intros Hrest%IH. rewrite length_app in Hrest. cbn in *. lia.
    + rewrite bind_run. discriminate.
Qed.

Lemma ExpressionList_DoBind_failure bind_element (l : ExpressionList) :
  ∀ acc h ex h',
    ExpressionList_DoBind bind_element l acc h = (Failure ex, h') →
    ∃ before e after bound h1 h2,
      l = before ++ e :: after ∧
      ExpressionList_DoBind bind_element before acc h = (Success bound, h1) ∧
      bind_element e h1 = (Failure ex, h2) ∧
      h' = (delete_list bound h2).2.
Proof.
  induction l as [|e l IH]; intros acc h ex h'; [discriminate|].
  cbn [ExpressionList_DoBind]. rewrite bind_run.
  destruct (bind_element e h) as [[b|ex'] h2] eqn:He; cbn [fst snd].
  - intros (before & x & after & bound & h1 & h3 & -> & Hb & Hx & ->)%IH.
    exists (e :: before), x, after, bound, h1, h3.
    split; [done|]. split; [|done].
    cbn [ExpressionList_DoBind]. by rewrite bind_run, He.
  - rewrite bind_run. unfold ret. cbn [fst snd]. intros [= <- <-].
    by exists [], e, l, acc, h, h2.
Qed.

(** X8. The outcome of binding [Concat], or a node that reuses a bound
    factory, has exactly these sources. A failure is the failure of one
    operand, reached after the operands before it were bound (these are then
    deleted), or the failure of the bound factory once every operand was
    bound; the node adds none of its own, whatever the number and the types
    of the operands. A success owns one bound child per operand and has the
    type the bound factory reported. *)
Theorem variadic_bind_outcome this args factory schema allocator rows h :
  variadic_args this = Some args →
  node_factory this = Some factory →
  let run := DoBind this schema allocator rows h in
  let bind_args l := ExpressionList_bind l schema allocator rows (entered this h) in
  match run.1 with
  | Success b =>
      ∃ h1,
        bind_args args = (Success (bound_children b), h1) ∧
        List.length (bound_children b) = List.length args ∧
        factory_verdict
          (Build_FactoryCall factory (bound_children b) None allocator rows)
        = Success (bound_type b)
  | Failure e =>
      (∃ before operand after bound h1 h2,
         args = before ++ operand :: after ∧
         bind_args before = (Success bound, h1) ∧
         DoBind operand schema allocator rows h1 = (Failure e, h2) ∧
         run.2 = (delete_list bound h2).2) ∨
      (∃ bound h1,
         bind_args args = (Success bound, h1) ∧
         factory_verdict (Build_FactoryCall factory bound None allocator rows)
         = Failure e)
  end.
Proof.
  intros Hargs Hf run bind_args. subst run bind_args.
  rewrite (DoBind_variadic this args factory) by done.
  rewrite bind_run. fold (entered this h). rewrite bind_run.
  destruct (ExpressionList_bind args schema allocator rows (entered this h))
    as [[bound|e] h1] eqn:Hlist; cbn [fst snd PROPAGATE_ON_FAILURE].
  - rewrite Invoke_result.
    destruct (factory_verdict _) as [ty|e] eqn:Hverdict.
    + exists h1. cbn [bound_children bound_type]. split; [done|].
      split; [|done].
      by apply ExpressionList_DoBind_length in Hlist.
    + right. by exists bound, h1.
  - left.
    apply ExpressionList_DoBind_failure in Hlist
      as (before & x & after & bound & h2 & h3 & -> & Hb & Hx & ->).
    by exists before, x, after, bound, h2, h3.
Qed.

(** X6. Nodes compose through the type the inner bound factory reports. When
    a unary node with a pattern is the operand of another one and binds to a
    type other than STRING, the outer node fails with the type mismatch that
    names this type, and no object bound on the way stays alive: the bound
    inner node is deleted together with the children it owns. *)
Theorem nested_mismatch_names_inner_type
    outer inner hook c inner_hook schema allocator rows h child h1 factory ty :
  unary_node outer = Some (inner, hook) →
  unary_node inner = Some (c, inner_hook) →
  DoBind c schema allocator rows (entered inner (entered outer h))
  = (Success child, h1) →
  GetExpressionType child = STRING →
  node_factory inner = Some factory →
  factory_verdict
    (Build_FactoryCall factory [child] (node_pattern inner) allocator rows)
  = Success ty →
  ty ≠ STRING →
  ∃ h2,
    DoBind outer schema allocator rows h
    = (Failure (unary_mismatch ty (ToString outer true)), h2) ∧
    live h2 = live h ∧ faults h2 = faults h.
Proof.
  intros Houter Hinner Hchild Hstring Hf Hverdict Hty.
  assert (Hinner_run :
    ∃ b h', DoBind inner schema allocator rows (entered outer h)
            = (Success b, h') ∧ GetExpressionType b = ty).
  { rewrite (DoBind_unary_node inner c inner_hook) by done.
    rewrite bind_run. fold (entered inner (entered outer h)).
    unfold UnaryExpression_DoBind. rewrite bind_run, Hchild.
    cbn [fst snd PROPAGATE_ON_FAILURE].
    destruct (unary_hook_accepts inner c inner_hook schema allocator rows
                child h1 Hinner Hstring) as (factory' & Hf' & ->).
    assert (factory' = factory) as -> by congruence.
    pose proof (Invoke_result factory [child] (node_pattern inner)
                  allocator rows h1) as Hres.
    rewrite Hverdict in Hres.
    destruct (Invoke factory [child] (node_pattern inner) allocator rows h1)
      as [res h'].
    cbn [fst] in Hres. subst res. by eexists _, _. }
  destruct Hinner_run as (b & h' & Hrun & Hb).
  assert (Hresult : ∃ h2, DoBind outer schema allocator rows h
            = (Failure (unary_mismatch ty (ToString outer true)), h2)).
  { rewrite (DoBind_unary_node outer inner hook) by done.
    rewrite bind_run. fold (entered outer h).
    unfold UnaryExpression_DoBind. rewrite bind_run, Hrun.
    cbn [fst snd PROPAGATE_ON_FAILURE].
    rewrite (unary_hook_rejects outer inner hook) by congruence.
    rewrite Hb. by eexists. }
  destruct Hresult as [h2 Hresult]. exists h2. split; [done|].
  pose proof (DoBind_frames outer schema allocator rows h) as [Hfaults Hlive].
  rewrite Hresult in Hfaults, Hlive. done.
Qed.

End Variadic.

(** ** What the nodes print *)

Section Printing.
Context `{Collaborators}.

Lemma JoinStrings_cons p q rest separator :
  JoinStrings (p :: q :: rest) separator
  = p +:+ separator +:+ JoinStrings (q :: rest) separator.
Proof. reflexivity. Qed.

Lemma JoinStrings_contains (pieces : list string) separator p :
  p ∈ pieces → Contains p (JoinStrings pieces separator).
Proof.
  induction pieces as [|q [|q' rest] IH].
  - by intros ?%elem_of_nil.
  - intros ->%list_elem_of_singleton. exists "", "". cbn.
    by rewrite Str.append_nil_r.
  - rewrite JoinStrings_cons. intros [->|Hin]%elem_of_cons.
    + by exists "", (separator +:+ JoinStrings (q' :: rest) separator).
    + destruct (IH Hin) as (before & after & ->).
      exists (q +:+ separator +:+ before), after.
      by rewrite !Str.append_assoc.
Qed.

(** X9. [CONCAT] prints every argument: the display of [Concat(args)] starts
    with the keyword and an opening parenthesis, ends with the closing one,
    and holds between them the whole representation of each argument, NUL
    bytes included, for the verbosity flag it was asked with. With no
    argument it prints CONCAT(). *)
Theorem concat_display_holds_every_argument (args : ExpressionList) verbose :
  (∃ inner, ToString (supersonic.Concat args) verbose
            = "CONCAT(" +:+ inner +:+ ")" ∧
            ∀ a, a ∈ args → Contains (ToString a verbose) inner) ∧
  (args = [] → ToString (supersonic.Concat args) verbose = "CONCAT()").
Proof.
  split.
  - exists (JoinStrings (map (λ e, ToString e verbose) args) ", ").
    split; [reflexivity|]. intros a Ha.
    apply JoinStrings_contains. apply list_elem_of_fmap. by exists a.
  - by intros ->.
Qed.

Lemma preorder_operand (args : ExpressionList) a x :
  a ∈ args → x ∈ preorder a → x ∈ flat_map preorder args.
Proof.
  intros Ha Hx. apply list_elem_of_In, in_flat_map.
  exists a. by rewrite <- !list_elem_of_In.
Qed.

Lemma operands_print_alike (args : ExpressionList) :
  Forall (λ a, ToString a true = ToString a false) args →
  map (λ e, ToString e true) args = map (λ e, ToString e false) args.
Proof. induction 1 as [|a args Ha _ IH]; cbn; [done|by rewrite Ha, IH]. Qed.

(** X10. No node of this file prints anything of its own that depends on the
    verbosity flag: the flag only travels down to the leaves. When the
    expressions declared elsewhere that a tree is built on print the same
    text for both flags, so does the tree, and the verbose form quoted in an
    error message is the plain display. *)
Theorem display_verbosity_comes_from_leaves (e : Expression) :
  (∀ describe resolve,
     ExternalExpression describe resolve ∈ preorder e →
     describe true = describe false) →
  ToString e true = ToString e false.
Proof.
  induction e as [describe resolve|args IH|op c p IH|c p IH|l p r IHl IHr
                 |args f d IH] using Expression_nested_ind; intros Hleaves.
  - apply (Hleaves describe resolve). cbn. by left.
  - cbn [ToString]. unfold ExpressionList_ToString.
    rewrite operands_print_alike; [done|].
    apply Forall_forall. intros a Ha.
    rewrite Forall_forall in IH. apply (IH a Ha).
    intros describe resolve Hx. apply (Hleaves describe resolve).
    cbn. right. by apply (preorder_operand args a).
  - cbn [ToString]. rewrite IH; [done|].
    intros describe resolve Hx. apply (Hleaves describe resolve).
    cbn. by right.
  - cbn [ToString]. rewrite IH; [done|].
    intros describe resolve Hx. apply (Hleaves describe resolve).
    cbn. by right.
  - cbn [ToString]. rewrite IHl, IHr; [done|..];
      intros describe resolve Hx; apply (Hleaves describe resolve);
      cbn; right; apply elem_of_app; first [by left | by right].
  - cbn [ToString]. rewrite operands_print_alike; [done|].
    apply Forall_forall. intros a Ha.
    rewrite Forall_forall in IH. apply (IH a Ha).
    intros describe resolve Hx. apply (Hleaves describe resolve).
    cbn. right. by apply (preorder_operand args a).
Qed.

End Printing.

(** * The claims at work on the small engine *)

Section Runs.
Import Sample.
Local Open Scope bind_scope.

Lemma unary_pattern_node_type_mismatch_witness :
  let this := supersonic.RegexpExtract memory int_col a_plus in
  let hook := RegexpExtractExpression_CreateBoundUnaryExpression int_col "a+" in
  unary_node this = Some (int_col, hook) ∧
  GetExpressionType bound_int ≠ STRING ∧
  (∃ e h',
     hook input () 1024%N bound_int two_live = (Failure e, h') ∧
     reports_mismatch e INT32 (ToString this true)) ∧
  (∃ e h2,
     DoBind this input () 1024%N empty_heap = (Failure e, h2) ∧
     reports_mismatch e INT32 (ToString this true)).
Proof.
  intros this hook.
  assert (Hty : GetExpressionType bound_int ≠ STRING) by discriminate.
  split; [reflexivity|]. split; [exact Hty|].
  destruct (unary_pattern_node_type_mismatch (H := engine) this int_col hook
              input () 1024%N bound_int eq_refl Hty) as [Hhook Hbind].
  split; [apply Hhook|].
  apply (Hbind empty_heap
           (DoBind int_col input () 1024%N (entered this empty_heap)).2).
  reflexivity.
Defined.

Lemma regexp_replace_checks_haystack_first_witness :
  ∃ e h',
    DoBind (supersonic.RegexpReplace memory int_col a_plus int_col)
      input () 1024%N empty_heap
    = (Failure e, h') ∧
    return_code e = ERROR_ATTRIBUTE_TYPE_MISMATCH ∧
    message e
    = "Invalid argument type (INT32) as first argument to REGEXP_REPLACE(int_col, int_col), STRING expected".
Proof.
  pose (this := RegexpReplaceExpression (H := engine) int_col "a+" int_col).
  pose (h1 := (DoBind int_col input () 1024%N (entered this empty_heap)).2).
  pose (h2 := (DoBind int_col input () 1024%N h1).2).
  destruct (regexp_replace_checks_haystack_first int_col "a+" int_col
              input () 1024%N bound_int (BoundNode 1 INT32 []) h2)
    as [Hfirst _].
  destruct Hfirst as (e & _ & Hreports & Hmsg & _ & Hbind); [discriminate|].
  exists e. eexists. split; [|split].
  - apply (Hbind empty_heap h1); reflexivity.
  - apply Hreports.
  - exact Hmsg.
Defined.

Lemma owned_two_live : owned [bound_str; bound_str'] two_live.
Proof.
  split.
  - repeat constructor; set_solver.
  - unfold two_live. cbn. set_solver.
Qed.

Lemma owned_bound_int : owned [bound_int] two_live.
Proof.
  split.
  - repeat constructor; set_solver.
  - unfold two_live. cbn. set_solver.
Qed.

Lemma hooks_release_or_forward_witness :
  let rejected :=
    RegexpExtractExpression_CreateBoundUnaryExpression int_col "a+"
      input () 1024%N bound_int two_live in
  let accepted :=
    RegexpReplaceExpression_CreateBoundBinaryExpression str_col "a+" other
      input () 1024%N bound_str bound_str' two_live in
  (settles [bound_int] two_live rejected ∧
   is_failure rejected.1 = true ∧
   log rejected.2 = [EvDelete bound_int]) ∧
  (settles [bound_str; bound_str'] two_live accepted ∧
   accepted = Invoke BoundRegexpReplace [bound_str; bound_str'] (Some "a+")
                () 1024%N two_live).
Proof.
  intros rejected accepted.
  destruct (hooks_release_or_forward (H := engine) input () 1024%N two_live)
    as [Hunary Hbinary].
  split.
  - destruct (Hunary (RegexpExtractExpression int_col "a+") int_col
                (RegexpExtractExpression_CreateBoundUnaryExpression int_col "a+")
                bound_int eq_refl owned_bound_int) as (Hsettles & Hreject & _).
    split; [exact Hsettles|]. apply Hreject. discriminate.
  - destruct (Hbinary str_col "a+" other bound_str bound_str' owned_two_live)
      as (Hsettles & _ & Haccept).
    split; [exact Hsettles|]. apply Haccept; reflexivity.
Defined.

Lemma binding_order_short_circuits_witness :
  let before := [str_col] in
  let after := [other; int_col] in
  let first := ExpressionList_bind before input () 1024%N empty_heap in
  let failed := DoBind missing input () 1024%N first.2 in
  ExpressionList_bind (before ++ missing :: after) input () 1024%N empty_heap
  = (Failure {| return_code := ERROR_ATTRIBUTE_MISSING; message := "nope" |},
     (delete_list [bound_str] failed.2).2).
Proof.
  intros before after first failed.
  destruct (binding_order_short_circuits (H := engine) input () 1024%N)
    as (_ & _ & Hlist & _).
  apply (Hlist before missing after empty_heap [bound_str] first.2).
  - reflexivity.
  - reflexivity.
Defined.

Lemma concat_bind_propagates_or_forwards_witness :
  let this := supersonic.Concat [str_col; int_col] in
  let bound := ExpressionList_bind [str_col; int_col] input () 1024%N
                 (entered this empty_heap) in
  ∃ later,
    log (DoBind this input () 1024%N empty_heap).2
    = log bound.2
      ++ EvCall (Build_FactoryCall BoundConcat
                   [bound_str; BoundNode 1 INT32 []] None () 1024%N)
      :: later.
Proof.
  intros this bound.
  destruct (concat_bind_propagates_or_forwards (H := engine) [str_col; int_col]
              input () 1024%N empty_heap) as [_ Hcall].
  apply (Hcall [bound_str; BoundNode 1 INT32 []] bound.2). reflexivity.
Defined.

Lemma pattern_copied_and_forwarded_witness :
  let this := supersonic.RegexpPartialMatch memory str_col a_plus in
  let child := DoBind str_col input () 1024%N (entered this empty_heap) in
  string_of_bytes memory (piece_data a_plus) (piece_length a_plus) = "a+" ∧
  ∃ factory,
    node_factory this = Some factory ∧
    DoBind this input () 1024%N empty_heap
    = Invoke factory [bound_str] (Some "a+") () 1024%N child.2.
Proof.
  intros this child. split; [reflexivity|].
  destruct (pattern_copied_and_forwarded (H := engine) memory a_plus input () 1024%N)
    as (_ & _ & Hunary & _).
  apply (Hunary this str_col
           (RegexpExpression_CreateBoundUnaryExpression
              OPERATOR_REGEXP_PARTIAL str_col "a+")
           empty_heap bound_str child.2); reflexivity.
Defined.

Lemma display_independent_of_pattern_witness :
  RegexpExtractExpression_CreateBoundUnaryExpression int_col "a+"
    input () 1024%N bound_int two_live
  = RegexpExtractExpression_CreateBoundUnaryExpression int_col "[0-9]*"
      input () 1024%N bound_int two_live.
Proof.
  destruct (display_independent_of_pattern (H := engine) memory memory a_plus a_plus)
    as [_ Hhooks].
  destruct (Hhooks "a+" "[0-9]*" input () 1024%N two_live)
    as (_ & Hextract & _).
  apply Hextract. discriminate.
Defined.

(** ** Scenarios *)

Example regexp_replace_on_strings_binds :
  outcome (DoBind (supersonic.RegexpReplace memory str_col a_plus other)
             input () 1024%N empty_heap)
  = (Success (BoundNode 2 STRING [bound_str; bound_str']), [2; 1; 0], []).
Proof. vm_compute. reflexivity. Qed.

Example regexp_replace_on_integer_haystack_fails :
  outcome (DoBind (supersonic.RegexpReplace memory int_col a_plus str_col)
             input () 1024%N empty_heap)
  = (Failure
       {| return_code := ERROR_ATTRIBUTE_TYPE_MISMATCH;
          message := "Invalid argument type (INT32) as first argument to REGEXP_REPLACE(int_col, str_col), STRING expected" |},
     [], []).
Proof. vm_compute. reflexivity. Qed.

Example regexp_replace_on_integer_substitute_fails :
  outcome (DoBind (supersonic.RegexpReplace memory str_col a_plus int_col)
             input () 1024%N empty_heap)
  = (Failure
       {| return_code := ERROR_ATTRIBUTE_TYPE_MISMATCH;
          message := "Invalid argument type (INT32) as last argument to REGEXP_REPLACE(str_col, int_col), STRING expected" |},
     [], []).
Proof. vm_compute. reflexivity. Qed.

Example regexp_extract_on_integer_fails :
  outcome (DoBind (supersonic.RegexpExtract memory int_col a_plus)
             input () 1024%N empty_heap)
  = (Failure
       {| return_code := ERROR_ATTRIBUTE_TYPE_MISMATCH;
          message := "Invalid argument type (INT32) to REGEXP_EXTRACT(int_col), STRING expected" |},
     [], []).
Proof. vm_compute. reflexivity. Qed.

Example concat_stops_at_the_first_failure :
  outcome (DoBind (supersonic.Concat [str_col; missing; other])
             input () 1024%N empty_heap)
  = (Failure {| return_code := ERROR_ATTRIBUTE_MISSING; message := "nope" |},
     [], []) ∧
  bind_events
    (log (DoBind (supersonic.Concat [str_col; missing; other])
            input () 1024%N empty_heap).2)
  = [supersonic.Concat [str_col; missing; other]; str_col; missing].
Proof. split; vm_compute; reflexivity. Qed.

Example displays :
  ToString (supersonic.Concat [str_col; other]) true = "CONCAT(str_col, other)" ∧
  ToString (supersonic.Substring str_col int_col int_col) false
  = "SUBSTRING(str_col, int_col, int_col)" ∧
  ToString (supersonic.TrailingSubstring str_col int_col) false
  = "SUBSTRING(str_col, int_col)" ∧
  ToString (supersonic.Length str_col) true = "LENGTH(str_col)".
Proof. repeat split; vm_compute; reflexivity. Qed.

(** A NUL byte in the representation of a child ends the C string that [%s]
    prints: [REGEXP_EXTRACT] shows the child up to that byte. *)
Example c_string_ends_at_nul :
  ToString
    (supersonic.RegexpExtract memory
       (NamedAttribute (String "a" (String "000" "b"))) a_plus) true
  = "REGEXP_EXTRACT(a)".
Proof. vm_compute. reflexivity. Qed.

End Runs.

(** * The further properties at work on the small engine *)

Section MoreRuns.
Import Sample.
Local Open Scope bind_scope.

Lemma regexp_extract_mismatch_message_witness :
  ∃ e h',
    RegexpExtractExpression_CreateBoundUnaryExpression int_col "a+"
      input () 1024%N bound_int two_live = (Failure e, h') ∧
    message e
    = "Invalid argument type (INT32) to REGEXP_EXTRACT(int_col), STRING expected".
Proof.
  destruct (regexp_extract_mismatch_message (H := engine) int_col "a+"
              input () 1024%N bound_int two_live)
    as [_ (e & h' & Hrun & Hmsg & _)]; [discriminate|].
  exists e, h'. split; [exact Hrun | exact Hmsg].
Defined.

Lemma unary_bind_outcome_witness :
  let this := supersonic.RegexpPartialMatch memory str_col a_plus in
  ∃ child factory,
    (DoBind str_col input () 1024%N (entered this empty_heap)).1
    = Success child ∧
    GetExpressionType child = STRING ∧
    node_factory this = Some factory ∧
    factory_verdict
      (Build_FactoryCall factory [child] (node_pattern this) () 1024%N)
    = Success BOOL ∧
    [bound_str] = [child].
Proof.
  intros this.
  exact (unary_bind_outcome (H := engine) this str_col
           (RegexpExpression_CreateBoundUnaryExpression
              OPERATOR_REGEXP_PARTIAL str_col "a+")
           input () 1024%N empty_heap eq_refl).
Defined.

Lemma successful_bind_returns_fresh_tree_witness :
  let run :=
    DoBind (supersonic.RegexpReplace memory str_col a_plus other)
      input () 1024%N empty_heap in
  let b := BoundNode 2 STRING [bound_str; bound_str'] in
  NoDup (footprint b) ∧
  (∀ a, a ∈ footprint b → a ∉ live empty_heap) ∧
  live run.2 = list_to_set (footprint b) ∪ live empty_heap ∧
  faults run.2 = faults empty_heap.
Proof.
  intros run b.
  apply (successful_bind_returns_fresh_tree (H := engine)
           (supersonic.RegexpReplace memory str_col a_plus other)
           input () 1024%N empty_heap b run.2).
  reflexivity.
Defined.

Lemma nested_mismatch_names_inner_type_witness :
  let inner := supersonic.RegexpPartialMatch memory str_col a_plus in
  let outer := supersonic.RegexpExtract memory inner a_plus in
  ∃ h2,
    DoBind outer input () 1024%N empty_heap
    = (Failure
         {| return_code := ERROR_ATTRIBUTE_TYPE_MISMATCH;
            message := "Invalid argument type (BOOL) to REGEXP_EXTRACT(REGEXP_PARTIAL(str_col)), STRING expected" |},
       h2) ∧
    live h2 = live empty_heap ∧ faults h2 = faults empty_heap.
Proof.
  intros inner outer.
  apply (nested_mismatch_names_inner_type (H := engine) outer inner
           (RegexpExtractExpression_CreateBoundUnaryExpression inner "a+")
           str_col
           (RegexpExpression_CreateBoundUnaryExpression
              OPERATOR_REGEXP_PARTIAL str_col "a+")
           input () 1024%N empty_heap bound_str
           (DoBind str_col input () 1024%N
              (entered inner (entered outer empty_heap))).2
           (BoundGeneralRegexp OPERATOR_REGEXP_PARTIAL) BOOL);
    first [reflexivity | discriminate].
Defined.

Lemma variadic_bind_outcome_witness :
  let args := [str_col; missing; other] in
  let this := supersonic.Concat args in
  let e := {| return_code := ERROR_ATTRIBUTE_MISSING; message := "nope" |} in
  let bind_args l := ExpressionList_bind l input () 1024%N (entered this empty_heap) in
  (∃ before operand after bound h1 h2,
     args = before ++ operand :: after ∧
     bind_args before = (Success bound, h1) ∧
     DoBind operand input () 1024%N h1 = (Failure e, h2) ∧
     (DoBind this input () 1024%N empty_heap).2 = (delete_list bound h2).2) ∨
  (∃ bound h1,
     bind_args args = (Success bound, h1) ∧
     factory_verdict (Build_FactoryCall BoundConcat bound None () 1024%N)
     = Failure e).
Proof.
  intros args this e bind_args.
  exact (variadic_bind_outcome (H := engine) this args BoundConcat
           input () 1024%N empty_heap eq_refl eq_refl).
Defined.

Lemma display_verbosity_comes_from_leaves_witness :
  let e :=
    supersonic.RegexpReplace memory str_col a_plus (supersonic.Length other) in
  ToString e true = ToString e false.
Proof.
  intros e.
  apply (display_verbosity_comes_from_leaves (H := engine) e).
  intros describe resolve Hin.
  apply list_elem_of_In in Hin. cbn in Hin.
  destruct Hin as [Hin|[Hin|[Hin|[Hin|[]]]]];
    try discriminate; by injection Hin as <- _.
Defined.

(** A NUL byte in a child's name survives in [CONCAT] and is cut by
    [REGEXP_EXTRACT]. *)
Example concat_keeps_what_regexp_extract_cuts :
  let odd := NamedAttribute (String "a" (String "000" "b")) in
  ToString (supersonic.Concat [odd; str_col]) true
  = String "C" (String "O" (String "N" (String "C" (String "A" (String "T"
      (String "(" (String "a" (String "000" "b, str_col)")))))))) ∧
  ToString (supersonic.RegexpExtract memory odd a_plus) true
  = "REGEXP_EXTRACT(a)".
Proof. split; vm_compute; reflexivity. Qed.

End MoreRuns.
